(** * getcontacts: salt-bridge detection and flare-graph aggregation

    A shallow embedding of
      - [get_contact_flare.py]: [parse_itypes] and the graph builder
        [create_graph] (kept in that file as a commented-out definition;
        [main] calls [create_flare] of [contact_calc.flare] in its place),
      - [contact_calc/salt_bridges.py]: [filter_dual_selection_salt_bridges],
        [prep_salt_bridge_computation] and [compute_salt_bridges],
    together with the properties the specification states about them.

    Python values are modelled as follows.  A [str] is a [string] (its UTF-8
    bytes; byte-wise lexicographic order coincides with code-point order).  A
    [dict] with string keys is a [gmap string _], a [set] is a [gset _], a
    [list] or [tuple] is a [list].  A [KeyError] is [None] in the option
    monad.  A [float] is a [pyfloat]: only its comparison [<] is used. *)

From Stdlib Require Import Ascii String QArith Lqa.
From stdpp Require Import base option list gmap sets strings sorting.

#[local] Set Warnings "-clear-no-such-hyp".

Local Open Scope string_scope.
Local Open Scope Z_scope.
Local Open Scope list_scope.

(** ** Python string primitives *)

Module PyStr.

(** [sep.join(fields)] *)
Definition join (sep : string) (fields : list string) : string :=
  String.concat sep fields.

(** [a > b] on strings: lexicographic comparison of the characters. *)
Definition gt (a b : string) : bool := String.ltb b a.

(** [s.startswith(sub)] *)
Fixpoint startswith (sub s : string) : bool :=
  match sub, s with
  | EmptyString, _ => true
  | String _ _, EmptyString => false
  | String a sub', String b s' => Ascii.eqb a b && startswith sub' s'
  end.

(** [sub in s]: [sub] occurs at some position of [s]. *)
Fixpoint contains (sub s : string) : bool :=
  startswith sub s ||
  match s with
  | EmptyString => false
  | String _ s' => contains sub s'
  end.

(** [s.split(sep)] for a one-character separator: the maximal runs between
    separators, empty runs included; never an empty list. *)
Fixpoint split (sep : ascii) (s : string) : list string :=
  match s with
  | EmptyString => [EmptyString]
  | String c s' =>
      if Ascii.eqb c sep then EmptyString :: split sep s'
      else match split sep s' with
           | tok :: toks => String c tok :: toks
           | [] => [String c EmptyString]
           end
  end.

(** A string without the character [sep]. *)
Fixpoint free_of (sep : ascii) (s : string) : Prop :=
  match s with
  | EmptyString => True
  | String c s' => c ≠ sep ∧ free_of sep s'
  end.

End PyStr.

(** ** Python floats, as far as [<] sees them *)

Inductive pyfloat : Type :=
  | FNaN
  | FNegInf
  | FFin (q : Q)
  | FPosInf.

(** [x < y] on floats: false whenever an operand is NaN. *)
Definition float_lt (x y : pyfloat) : bool :=
  match x, y with
  | FNaN, _ | _, FNaN => false
  | FNegInf, FNegInf => false
  | FNegInf, _ => true
  | _, FNegInf => false
  | FPosInf, _ => false
  | FFin _, FPosInf => true
  | FFin p, FFin q => negb (Qle_bool q p)
  end.

(** [x == y] on floats. *)
Definition float_eq (x y : pyfloat) : bool :=
  match x, y with
  | FNegInf, FNegInf | FPosInf, FPosInf => true
  | FFin p, FFin q => Qeq_bool p q
  | _, _ => false
  end.

(** ** get_contact_flare.py *)

Module Flare.

(** The value [parse_itypes] returns: a list on one path, a set on the
    other. *)
Inductive itypes : Type :=
  | ItypeList (l : list string)
  | ItypeSet (s : gset string).

Definition all_itypes : list string :=
  ["sb"; "pc"; "ps"; "ts"; "vdw"; "hb"; "lhb"; "hbbb"; "hbsb";
   "hbss"; "wb"; "wb2"; "hls"; "hlb"; "lwb"; "lwb2"].

Definition parse_itypes (itype_argument : string) : itypes :=
  if PyStr.contains "all" itype_argument then ItypeList all_itypes
  else ItypeSet (list_to_set (PyStr.split "," itype_argument)).

(** An atom is the tuple of its label fields: chain, residue name, residue
    number, atom name. *)
Definition atom : Type := list string.

(** A contact [(frame, itype, atom1, atom2 [, atom3 [, atom4]])].  The frame
    is read through [int(contact[0])]; it is kept here as the integer. *)
Record contact : Type := Contact {
  c_frame : Z;
  c_itype : string;
  c_atom1 : atom;
  c_atom2 : atom;
  c_more : list atom
}.

(** The 4-tuple [(c[0], c[1], c[2][0:3], c[3][0:3])]. *)
Definition stripped : Type := Z * string * atom * atom.

Definition strip (c : contact) : stripped :=
  (c_frame c, c_itype c, take 3 (c_atom1 c), take 3 (c_atom2 c)).

(** An entry of [resi_labels]. *)
Record resi_label : Type := ResiLabel {
  label : string;
  treepath : string;
  color : string
}.

(** An edge specifier [{"name1": _, "name2": _, "frames": _}]. *)
Record edge : Type := Edge {
  name1 : string;
  name2 : string;
  frames : list Z
}.

Record tree : Type := Tree { treeLabel : string; treePaths : list string }.
Record track_property : Type :=
  TrackProperty { nodeName : string; tp_color : string; size : Q }.
Record track : Type :=
  Track { trackLabel : string; trackProperties : list track_property }.

(** The returned dict [ret]. *)
Record flare : Type := Flare {
  edges : list edge;
  trees : option (list tree);
  tracks : option (list track)
}.

(** The state of the loop over the contacts.  Every edge object is created
    once, stored in [resi_edges] and appended to [ret["edges"]] at the same
    time, and then mutated through [resi_edges]: the two containers share
    the objects.  [ret_edges] is the object store, in creation order, and
    [resi_edges] holds references into it (positions).  [stdout] records the
    contacts for which the omission message was printed. *)
Record builder : Type := Builder {
  resi_edges : gmap string nat;
  ret_edges : list edge;
  stdout : list stripped
}.

Definition init : builder := Builder ∅ [] [].

(** [":".join(atom[0:3])] *)
Definition residue_key (a : atom) : string := PyStr.join ":" (take 3 a).

(** The swap [if a1_key > a2_key: a1_key, a2_key = a2_key, a1_key]. *)
Definition canonical (a1_key a2_key : string) : string * string :=
  if PyStr.gt a1_key a2_key then (a2_key, a1_key) else (a1_key, a2_key).

(** Truth value of [resi_labels] in [if resi_labels:]: [None] and the empty
    dict are false. *)
Definition truthy (resi_labels : option (gmap string resi_label)) : bool :=
  match resi_labels with
  | None => false
  | Some m => negb (bool_decide (m = ∅))
  end.

(** What the label look-up of one contact decides: the contact is omitted,
    or its edge carries these two names. *)
Inductive looked_up : Type :=
  | Omitted
  | Named (a1_label a2_label : string).

(** The block under [# Look up labels].  [None] is the [KeyError] of
    [resi_labels[key]]. *)
Definition look_up_labels (resi_labels : option (gmap string resi_label))
    (a1_key a2_key : string) : option looked_up :=
  if truthy resi_labels then
    let m := default ∅ resi_labels in
    if bool_decide (a1_key ∉ dom m) || bool_decide (a2_key ∉ dom m)
    then Some Omitted
    else
      l1 ← m !! a1_key;
      l2 ← m !! a2_key;
      Some (Named (label l1) (label l2))
  else Some (Named a1_key a2_key).

Definition append_frame (f : Z) (e : edge) : edge :=
  Edge (name1 e) (name2 e) (frames e ++ [f]).

(** One iteration of [for contact in contacts]. *)
Definition add_contact (resi_labels : option (gmap string resi_label))
    (st : builder) (contact : stripped) : option builder :=
  let '(frame, _, atom1, atom2) := contact in
  let a1_key := residue_key atom1 in
  let a2_key := residue_key atom2 in
  if String.eqb a1_key a2_key then Some st
  else
    let '(a1_key, a2_key) := canonical a1_key a2_key in
    let contact_key := a1_key +:+ a2_key in
    names ← look_up_labels resi_labels a1_key a2_key;
    match names with
    | Omitted =>
        Some (Builder (resi_edges st) (ret_edges st) (stdout st ++ [contact]))
    | Named a1_label a2_label =>
        let st1 :=
          if bool_decide (contact_key ∉ dom (resi_edges st)) then
            Builder (<[contact_key := length (ret_edges st)]> (resi_edges st))
                    (ret_edges st ++ [Edge a1_label a2_label []])
                    (stdout st)
          else st in
        ref ← resi_edges st1 !! contact_key;
        Some (Builder (resi_edges st1)
                      (alter (append_frame frame) ref (ret_edges st1))
                      (stdout st1))
    end.

Fixpoint add_contacts (resi_labels : option (gmap string resi_label))
    (st : builder) (contacts : list stripped) : option builder :=
  match contacts with
  | [] => Some st
  | contact :: rest =>
      st' ← add_contact resi_labels st contact;
      add_contacts resi_labels st' rest
  end.

(** [sorted(set(frames))] *)
Definition sorted_set (fs : list Z) : list Z :=
  merge_sort Z.le (elements (list_to_set fs : gset Z)).

Definition finalize (e : edge) : edge :=
  Edge (name1 e) (name2 e) (sorted_set (frames e)).

(** The "trees" and "tracks" sections, present when [resi_labels is not
    None]; the entries follow the iteration order of the dict. *)
Definition default_tree (m : gmap string resi_label) : tree :=
  Tree "DefaultTree" ((λ kv, treepath kv.2) <$> map_to_list m).

Definition default_track (m : gmap string resi_label) : track :=
  Track "DefaultTrack"
    ((λ kv, TrackProperty (label kv.2) (color kv.2) 1%Q) <$> map_to_list m).

(** The loop of [create_graph] over the stripped contacts. *)
Definition build (resi_labels : option (gmap string resi_label))
    (contacts : list contact) : option builder :=
  add_contacts resi_labels init (strip <$> contacts).

Definition create_graph (contacts : list contact)
    (resi_labels : option (gmap string resi_label)) : option flare :=
  st ← build resi_labels contacts;
  Some (Flare (finalize <$> ret_edges st)
              ((λ m, [default_tree m]) <$> resi_labels)
              ((λ m, [default_track m]) <$> resi_labels)).

End Flare.

(** ** contact_calc/salt_bridges.py *)

Module SaltBridges.

(** The queries of [contact_utils] that this module calls; [contact_utils]
    wraps the molecular-structure toolkit and is taken as a parameter.  The
    arguments are those of the Python functions: the trajectory fragment
    identifier, the frame index, then the selection queries or the atom
    labels. *)
Record contact_utils : Type := ContactUtils {
  get_anion_atoms : Z → Z → option string → option string → list string;
  get_cation_atoms : Z → Z → option string → option string → list string;
  get_selection_atoms : Z → Z → string → list string;
  compute_distance : Z → Z → string → string → pyfloat
}.

(** An entry [[frame_idx, "sb", anion_atom, cation_atom]]. *)
Definition salt_bridge : Type := Z * string * string * string.

Definition filter_dual_selection_salt_bridges
    (sele1_atoms sele2_atoms : list string)
    (anion_atom cation_atom : string) : bool :=
  let dual_sel1 := bool_decide (anion_atom ∈ sele1_atoms)
                   && bool_decide (cation_atom ∈ sele2_atoms) in
  let dual_sel2 := bool_decide (anion_atom ∈ sele2_atoms)
                   && bool_decide (cation_atom ∈ sele1_atoms) in
  if dual_sel1 || dual_sel2 then false else true.

(** The state of the two nested loops: the list [salt_bridges] under
    construction, and the calls made to [compute_distance] so far (anion,
    cation), in call order.  The second component is the trace of the
    external calls; the Python code does not store it. *)
Record run : Type := Run {
  salt_bridges : list salt_bridge;
  distance_queries : list (string * string)
}.

Section Detector.
Context (U : contact_utils).

Definition prep_salt_bridge_computation (traj_frag_molid frame_idx : Z)
    (sele_id sele_id2 : option string) : list string * list string :=
  let anion_list := get_anion_atoms U traj_frag_molid frame_idx sele_id sele_id2 in
  let cation_list := get_cation_atoms U traj_frag_molid frame_idx sele_id sele_id2 in
  (anion_list, cation_list).

(** [sele1_atoms] and [sele2_atoms]: bound only when both queries are
    given. *)
Definition selections (traj_frag_molid frame_idx : Z)
    (sele_id sele_id2 : option string) : option (list string * list string) :=
  match sele_id, sele_id2 with
  | Some q1, Some q2 =>
      Some (get_selection_atoms U traj_frag_molid frame_idx q1,
            get_selection_atoms U traj_frag_molid frame_idx q2)
  | _, _ => None
  end.

(** The test that ends in [continue]: both queries are given and the
    filter returns [True]. *)
Definition skipped (sele : option (list string * list string))
    (anion_atom cation_atom : string) : bool :=
  match sele with
  | Some (sele1_atoms, sele2_atoms) =>
      filter_dual_selection_salt_bridges sele1_atoms sele2_atoms
        anion_atom cation_atom
  | None => false
  end.

(** The body of [for cation_atom in cation_list]. *)
Definition visit (traj_frag_molid frame_idx : Z)
    (sele : option (list string * list string)) (cutoff : pyfloat)
    (anion_atom : string) (r : run) (cation_atom : string) : run :=
  if skipped sele anion_atom cation_atom then r
  else
    let dist := compute_distance U traj_frag_molid frame_idx anion_atom cation_atom in
    let queries := distance_queries r ++ [(anion_atom, cation_atom)] in
    if float_lt dist cutoff
    then Run (salt_bridges r ++ [(frame_idx, "sb", anion_atom, cation_atom)]) queries
    else Run (salt_bridges r) queries.

Definition compute_salt_bridges_run (traj_frag_molid frame_idx : Z)
    (sele_id sele_id2 : option string) (SALT_BRIDGE_CUTOFF_DISTANCE : pyfloat) : run :=
  let '(anion_list, cation_list) :=
    prep_salt_bridge_computation traj_frag_molid frame_idx sele_id sele_id2 in
  let sele := selections traj_frag_molid frame_idx sele_id sele_id2 in
  foldl (λ r anion_atom,
           foldl (visit traj_frag_molid frame_idx sele
                    SALT_BRIDGE_CUTOFF_DISTANCE anion_atom) r cation_list)
        (Run [] []) anion_list.

Definition compute_salt_bridges (traj_frag_molid frame_idx : Z)
    (sele_id sele_id2 : option string) (SALT_BRIDGE_CUTOFF_DISTANCE : pyfloat)
    : list salt_bridge :=
  salt_bridges (compute_salt_bridges_run traj_frag_molid frame_idx
                  sele_id sele_id2 SALT_BRIDGE_CUTOFF_DISTANCE).

End Detector.

(** The default value of [SALT_BRIDGE_CUTOFF_DISTANCE]. *)
Definition default_cutoff : pyfloat := FFin 4.

End SaltBridges.

(** ** Notions used to state the properties of the detector *)

Module SaltBridgeFacts.
Import SaltBridges.

(** The cross product of the candidate lists, in the order of the two
    nested loops. *)
Definition candidate_pairs (U : contact_utils) (molid frame : Z)
    (sele_id sele_id2 : option string) : list (string * string) :=
  let '(anion_list, cation_list) :=
    prep_salt_bridge_computation U molid frame sele_id sele_id2 in
  list_prod anion_list cation_list.

(** The pair is not skipped by the selection test. *)
Definition passes (sele : option (list string * list string))
    (p : string * string) : bool :=
  negb (skipped sele p.1 p.2).

(** The distance of the pair is below the cutoff. *)
Definition within (U : contact_utils) (molid frame : Z) (cutoff : pyfloat)
    (p : string * string) : bool :=
  float_lt (compute_distance U molid frame p.1 p.2) cutoff.

Definition record_of (frame : Z) (p : string * string) : salt_bridge :=
  (frame, "sb", p.1, p.2).

(** A structure whose acidic candidates near a ligand change between the
    first and the second frame. *)
Definition drifting : contact_utils :=
  ContactUtils
    (λ _ frame _ _, if (frame =? 0)%Z then ["A:ASP:1:OD1"] else ["A:GLU:7:OE1"])
    (λ _ _ _ _, ["A:LYS:3:NZ"])
    (λ _ _ _, [])
    (λ _ _ _ _, FFin 3).

(** One anion and two cations, at 4.0 and at 3.99 from it. *)
Definition boundary : contact_utils :=
  ContactUtils
    (λ _ _ _ _, ["A:ASP:1:OD1"])
    (λ _ _ _ _, ["A:LYS:3:NZ"; "A:ARG:9:NH1"])
    (λ _ _ _, [])
    (λ _ _ _ c, if String.eqb c "A:LYS:3:NZ" then FFin 4 else FFin (399 # 100)).

(** Two selections, an acidic and a basic residue, and a second basic
    residue in neither; the pair with the latter is 2.5 apart. *)
Definition scoped : contact_utils :=
  ContactUtils
    (λ _ _ _ _, ["A:ASP:1:OD1"])
    (λ _ _ _ _, ["A:LYS:3:NZ"; "A:ARG:9:NH1"])
    (λ _ _ q, if String.eqb q "resid 1" then ["A:ASP:1:OD1"] else ["A:LYS:3:NZ"])
    (λ _ _ _ c, if String.eqb c "A:ARG:9:NH1" then FFin (5 # 2) else FFin (16 # 5)).

(** As [scoped], with the pair outside the selections 9 apart. *)
Definition scoped' : contact_utils :=
  ContactUtils
    (get_anion_atoms scoped)
    (get_cation_atoms scoped)
    (get_selection_atoms scoped)
    (λ molid frame a c,
       if String.eqb c "A:ARG:9:NH1" then FFin 9
       else compute_distance scoped molid frame a c).

End SaltBridgeFacts.

(** ** Notions used to state the properties of the graph builder *)

Module FlareFacts.
Import Flare.

(** The two residue keys of a contact, after the swap. *)
Definition keys (c : stripped) : string * string :=
  let '(_, _, atom1, atom2) := c in
  canonical (residue_key atom1) (residue_key atom2).

(** The contact is skipped by [if a1_key == a2_key: continue]. *)
Definition self_contact (c : stripped) : bool :=
  let '(_, _, atom1, atom2) := c in
  String.eqb (residue_key atom1) (residue_key atom2).

(** The key under which the contact is filed in [resi_edges]. *)
Definition contact_key (c : stripped) : string :=
  (keys c).1 +:+ (keys c).2.

(** The contact reaches the edge update: it is neither a self contact nor
    omitted by the label look-up. *)
Definition kept (resi_labels : option (gmap string resi_label))
    (c : stripped) : bool :=
  negb (self_contact c) &&
  match look_up_labels resi_labels (keys c).1 (keys c).2 with
  | Some (Named _ _) => true
  | _ => false
  end.

(** The contact is kept and filed under the edge at position [i]. *)
Definition mapped_to (resi_labels : option (gmap string resi_label))
    (st : builder) (c : stripped) (i : nat) : Prop :=
  kept resi_labels c = true ∧ resi_edges st !! contact_key c = Some i.

(** The frames of the kept contacts filed under [key], in input order. *)
Definition frames_for (resi_labels : option (gmap string resi_label))
    (key : string) (cs : list stripped) : list Z :=
  (λ c : stripped, c.1.1.1) <$>
    List.filter (λ c, kept resi_labels c && String.eqb (contact_key c) key) cs.

(** What the loop maintains, [cs] being the contacts visited so far:
    references are valid and distinct, every edge is referenced, and the
    edge filed under a key was created for the two residue keys of a
    visited contact, which are distinct and in canonical order, and holds
    the frames of the kept contacts filed under that key. *)
Record consistent (resi_labels : option (gmap string resi_label))
    (cs : list stripped) (st : builder) : Prop := Consistent {
  refs_distinct : ∀ k k' i,
    resi_edges st !! k = Some i → resi_edges st !! k' = Some i → k = k';
  refs_onto : ∀ i, (i < length (ret_edges st))%nat →
    ∃ k, resi_edges st !! k = Some i;
  refs_filed : ∀ c, c ∈ cs → kept resi_labels c = true →
    is_Some (resi_edges st !! contact_key c);
  refs_edge : ∀ k i, resi_edges st !! k = Some i →
    ∃ e k1 k2, ret_edges st !! i = Some e
      ∧ k = k1 +:+ k2 ∧ String.ltb k1 k2 = true
      ∧ look_up_labels resi_labels k1 k2 = Some (Named (name1 e) (name2 e))
      ∧ frames e = frames_for resi_labels k cs
      ∧ ∃ c, c ∈ cs ∧ self_contact c = false ∧ keys c = (k1, k2)
}.


Definition one_bridge : list contact :=
  [Contact 0 "sb" ["A"; "GLU"; "9"; "OE1"] ["A"; "ARG"; "4"; "NH1"] []].


End FlareFacts.

(** ** dynamic_contact_networks.py *)

Module DynamicContactNetworks.

(** The exceptions the script can end with. *)
Inductive exn : Type :=
  | SystemExit (code : Z)
  | ValueError
  | IndexError
  | NameError.

(** The outcome of a statement that can raise. *)
Inductive result (A : Type) : Type :=
  | Ok (a : A)
  | Raise (e : exn).
Arguments Ok {A} a.
Arguments Raise {A} e.

#[global] Instance result_bind : MBind result :=
  λ A B f m, match m with Ok a => f a | Raise e => Raise e end.

Definition K_MIN_ARG : nat := 4.

(** [l.index(x)]: the first position of [x]; [ValueError] when absent. *)
Fixpoint index (x : string) (l : list string) : result nat :=
  match l with
  | [] => Raise ValueError
  | y :: l' => if String.eqb y x then Ok 0%nat else i ← index x l'; Ok (S i)
  end.

(** [l[i]] for [i >= 0]: [IndexError] out of range. *)
Definition item (l : list string) (i : nat) : result string :=
  match l !! i with
  | Some v => Ok v
  | None => Raise IndexError
  end.

(** The arguments [compute_dynamic_contacts] is called with. *)
Record call : Type := Call {
  TOP : string;
  TRAJ : string;
  OUTPUT_DIR : string;
  ITYPES : list string;
  cores : Z;
  stride : Z;
  solvent_resn : string;
  sele_id : option string;
  ligand : option string
}.

Section Script.
(** The built-in [int] on a string; [None] is its [ValueError]. *)
Context (int : string → option Z).

Definition to_int (s : string) : result Z :=
  match int s with
  | Some n => Ok n
  | None => Raise ValueError
  end.

(** The block under [if __name__ == "__main__"], up to the call of
    [compute_dynamic_contacts], whose arguments it returns; what the script
    prints is left out.  [solvIndex] is bound nowhere: reading it raises
    [NameError]. *)
Definition main (argv : list string) : result call :=
  if (length argv <? K_MIN_ARG)%nat then Raise (SystemExit 1)
  else
    TOP ← item argv 1;
    TRAJ ← item argv 2;
    OUTPUT_DIR ← item argv 3;
    itype_index ← index "-itype" argv;
    let ITYPES := drop (itype_index + 1) argv in
    let ITYPES :=
      if bool_decide ("-all" ∈ ITYPES)
      then ["-sb"; "-pc"; "-ps"; "-ts"; "-vdw"; "-hb"; "-hlb"]
      else ITYPES in
    cores ←
      (if bool_decide ("-cores" ∈ argv) then
         core_index ← index "-cores" argv;
         v ← item argv (core_index + 1);
         to_int v
       else Ok 6);
    stride ←
      (if bool_decide ("-stride" ∈ argv) then
         stride_index ← index "-stride" argv;
         v ← item argv (stride_index + 1);
         to_int v
       else Ok 1);
    solvent_resn ←
      (if bool_decide ("-solv" ∈ argv) then
         solv_index ← index "-solv" argv;
         Raise NameError
       else Ok "TIP3");
    sele_id ←
      (if bool_decide ("-sele" ∈ argv) then
         sele_index ← index "-sele" argv;
         v ← item argv (sele_index + 1);
         Ok (Some v)
       else Ok None);
    ligand ←
      (if bool_decide ("-ligand" ∈ argv) then
         ligand_index ← index "-ligand" argv;
         v ← item argv (ligand_index + 1);
         Ok (Some v)
       else Ok None);
    Ok (Call TOP TRAJ OUTPUT_DIR ITYPES cores stride solvent_resn sele_id ligand).

End Script.

End DynamicContactNetworks.

(** ** Further notions for the graph builder and the command line *)

Module MoreFacts.
Import Flare FlareFacts.

(** The distinct elements of a list, in the order of their first
    occurrence. *)
Definition first_seen (l : list string) : list string :=
  foldl (λ acc x, if bool_decide (x ∈ acc) then acc else acc ++ [x]) [] l.

(** The contact keys of the kept contacts, in input order. *)
Definition kept_keys (resi_labels : option (gmap string resi_label))
    (cs : list stripped) : list string :=
  contact_key <$> List.filter (kept resi_labels) cs.

(** The contact joins two residues and the label look-up omits it. *)
Definition omitted (resi_labels : option (gmap string resi_label))
    (c : stripped) : bool :=
  negb (self_contact c) && negb (kept resi_labels c).

(** The key filed at position [i] is the [i]-th distinct contact key of the
    kept contacts visited so far. *)
Definition in_input_order (resi_labels : option (gmap string resi_label))
    (cs : list stripped) (st : builder) : Prop :=
  length (ret_edges st) = length (first_seen (kept_keys resi_labels cs))
  ∧ ∀ k i, resi_edges st !! k = Some i
           ↔ first_seen (kept_keys resi_labels cs) !! i = Some k.

(** Two contacts of the same frame between the same two residues, in either
    order; interaction type, atom names and further atoms are free. *)
Definition same_residues (c c' : contact) : Prop :=
  c_frame c = c_frame c'
  ∧ ((residue_key (c_atom1 c) = residue_key (c_atom1 c')
      ∧ residue_key (c_atom2 c) = residue_key (c_atom2 c'))
     ∨ (residue_key (c_atom1 c) = residue_key (c_atom2 c')
        ∧ residue_key (c_atom2 c) = residue_key (c_atom1 c'))).

(** The contact with its two atoms exchanged. *)
Definition exchanged (c : contact) : contact :=
  Contact (c_frame c) (c_itype c) (c_atom2 c) (c_atom1 c) (c_more c).

(** A reading of unsigned decimal numerals, used where a concrete [int] is
    needed. *)
Fixpoint digits (acc : Z) (s : string) : option Z :=
  match s with
  | EmptyString => Some acc
  | String c s' => d ← Ascii.is_nat c; digits (10 * acc + Z.of_nat d) s'
  end.

Definition decimal (s : string) : option Z :=
  match s with
  | EmptyString => None
  | _ => digits 0 s
  end.

(** Command lines of the evaluations below: the example of the usage text,
    one with every option that works, one with [-solv], and one with an
    option after [-itype]. *)
Definition usage_example : list string :=
  ["dynamic_contact_networks.py"; "topology.pdb"; "trajectory.dcd"; "output";
   "-itype"; "-hb"; "-hlb"].

Definition options_example : list string :=
  ["dynamic_contact_networks.py"; "topology.pdb"; "trajectory.dcd"; "output";
   "-cores"; "12"; "-stride"; "5"; "-sele"; "chain A"; "-ligand"; "LIG";
   "-itype"; "-sb"; "-all"].

Definition solv_example : list string :=
  ["dynamic_contact_networks.py"; "topology.pdb"; "trajectory.dcd"; "output";
   "-solv"; "TIP4"; "-itype"; "-sb"].

Definition late_option_example : list string :=
  ["dynamic_contact_networks.py"; "topology.pdb"; "trajectory.dcd"; "output";
   "-itype"; "-sb"; "-cores"; "4"].

(** A structure without acidic candidates. *)
Definition barren : SaltBridges.contact_utils :=
  SaltBridges.ContactUtils
    (λ _ _ _ _, [])
    (λ _ _ _ _, ["A:LYS:3:NZ"; "A:ARG:9:NH1"])
    (λ _ _ _, ["A:LYS:3:NZ"])
    (λ _ _ _ _, FFin 3).

End MoreFacts.

(** ** Properties of the float comparison *)

Section FloatFacts.

Lemma float_lt_irrefl (x : pyfloat) : float_lt x x = false.
Proof.
  destruct x as [| |q|]; simpl; try reflexivity.
  apply negb_false_iff, Qle_bool_iff, Qle_refl.
Qed.

Lemma float_eq_not_lt (x y : pyfloat) :
  float_eq x y = true → float_lt x y = false.
Proof.
  destruct x as [| |p|], y as [| |q|]; simpl; try congruence.
  intros Heq%Qeq_bool_iff.
  apply negb_false_iff, Qle_bool_iff. rewrite Heq. apply Qle_refl.
Qed.

Lemma float_lt_below (c eps : Q) :
  (0 < eps)%Q → float_lt (FFin (c - eps)) (FFin c) = true.
Proof.
  intros Heps. simpl. apply negb_true_iff.
  destruct (Qle_bool c (c - eps)) eqn:Hle; [|reflexivity].
  apply Qle_bool_iff in Hle. lra.
Qed.

End FloatFacts.

(** ** The two loops of [compute_salt_bridges] as filters of the cross product *)

Section DetectorFacts.
Import SaltBridges SaltBridgeFacts.
Context (U : contact_utils) (molid frame : Z).
Context (sele : option (list string * list string)) (cutoff : pyfloat).

Lemma foldl_visit (anion : string) (cations : list string) (r : run) :
  foldl (visit U molid frame sele cutoff anion) r cations =
  Run (salt_bridges r ++
         map (record_of frame)
           (List.filter (within U molid frame cutoff)
              (List.filter (passes sele) (map (pair anion) cations))))
      (distance_queries r ++
         List.filter (passes sele) (map (pair anion) cations)).
Proof.
  revert r. induction cations as [|c cs IH]; intros [sb qs].
  - simpl. by rewrite !app_nil_r.
  - cbn [foldl map List.filter]. rewrite IH.
    assert (passes sele (anion, c) = negb (skipped sele anion c)) as -> by done.
    unfold visit. destruct (skipped sele anion c); cbn [negb]; [done|].
    cbn [List.filter].
    assert (within U molid frame cutoff (anion, c)
            = float_lt (compute_distance U molid frame anion c) cutoff) as -> by done.
    destruct (float_lt _ cutoff);
      cbn [map salt_bridges distance_queries]; by rewrite <- !app_assoc.
Qed.

Lemma foldl_anions (anions cations : list string) (r : run) :
  foldl (λ r anion, foldl (visit U molid frame sele cutoff anion) r cations)
        r anions =
  Run (salt_bridges r ++
         map (record_of frame)
           (List.filter (within U molid frame cutoff)
              (List.filter (passes sele) (list_prod anions cations))))
      (distance_queries r ++
         List.filter (passes sele) (list_prod anions cations)).
Proof.
  revert r. induction anions as [|a anions IH]; intros [sb qs]; simpl.
  - by rewrite !app_nil_r.
  - rewrite IH, foldl_visit. simpl.
    by rewrite !List.filter_app, map_app, <- !app_assoc.
Qed.

End DetectorFacts.

Section RunFacts.
Import SaltBridges SaltBridgeFacts.
Context (U : contact_utils) (molid frame : Z).
Context (sele_id sele_id2 : option string) (cutoff : pyfloat).

Lemma run_queries :
  distance_queries (compute_salt_bridges_run U molid frame sele_id sele_id2 cutoff) =
  List.filter (passes (selections U molid frame sele_id sele_id2))
    (candidate_pairs U molid frame sele_id sele_id2).
Proof.
  unfold compute_salt_bridges_run, candidate_pairs. simpl.
  by rewrite foldl_anions.
Qed.

Lemma run_salt_bridges :
  compute_salt_bridges U molid frame sele_id sele_id2 cutoff =
  map (record_of frame)
    (List.filter (within U molid frame cutoff)
       (distance_queries
          (compute_salt_bridges_run U molid frame sele_id sele_id2 cutoff))).
Proof.
  rewrite run_queries.
  unfold compute_salt_bridges, compute_salt_bridges_run, candidate_pairs. simpl.
  by rewrite foldl_anions.
Qed.

Lemma record_reported (anion cation : string) :
  (frame, "sb", anion, cation)
    ∈ compute_salt_bridges U molid frame sele_id sele_id2 cutoff ↔
  (anion, cation)
    ∈ distance_queries (compute_salt_bridges_run U molid frame sele_id sele_id2 cutoff)
  ∧ float_lt (compute_distance U molid frame anion cation) cutoff = true.
Proof.
  rewrite run_salt_bridges, !list_elem_of_In, in_map_iff. split.
  - intros ([a c] & Heq & [Hin Hw]%filter_In). unfold record_of in Heq.
    simpl in Heq. by simplify_eq.
  - intros [Hin Hlt]. exists (anion, cation). split; [done|].
    apply filter_In. by split.
Qed.

End RunFacts.

(** ** The salt-bridge detector: selection scope, cutoff, query order *)

Section DetectorClaims.
Import SaltBridges SaltBridgeFacts.

Lemma filter_accepts_iff (sele1_atoms sele2_atoms : list string) (atomA atomB : string) :
  filter_dual_selection_salt_bridges sele1_atoms sele2_atoms atomA atomB = false ↔
  (atomA ∈ sele1_atoms ∧ atomB ∈ sele2_atoms)
  ∨ (atomA ∈ sele2_atoms ∧ atomB ∈ sele1_atoms).
Proof.
  unfold filter_dual_selection_salt_bridges.
  repeat case_bool_decide; simpl; intuition congruence.
Qed.

Lemma passes_none (l : list (string * string)) : List.filter (passes None) l = l.
Proof. induction l as [|p l IH]; simpl; [done|]. by rewrite IH. Qed.

Lemma candidate_pairs_elem (U : contact_utils) (molid frame : Z)
    (sele_id sele_id2 : option string) (a c : string) :
  (a, c) ∈ candidate_pairs U molid frame sele_id sele_id2 ↔
  a ∈ get_anion_atoms U molid frame sele_id sele_id2
  ∧ c ∈ get_cation_atoms U molid frame sele_id sele_id2.
Proof.
  unfold candidate_pairs. simpl. by rewrite !list_elem_of_In, in_prod_iff.
Qed.

(** With both selection queries given, the distance of a pair is queried
    exactly when it is a candidate pair that the filter does not reject. *)
Lemma queried_iff (U : contact_utils) (molid frame : Z) (q1 q2 : string)
    (cutoff : pyfloat) (a c : string) :
  (a, c) ∈ distance_queries
     (compute_salt_bridges_run U molid frame (Some q1) (Some q2) cutoff) ↔
  (a, c) ∈ candidate_pairs U molid frame (Some q1) (Some q2)
  ∧ filter_dual_selection_salt_bridges
      (get_selection_atoms U molid frame q1)
      (get_selection_atoms U molid frame q2) a c = false.
Proof.
  rewrite run_queries, !list_elem_of_In, filter_In.
  unfold passes, selections, skipped. simpl. by rewrite negb_true_iff.
Qed.

(** C2: the selection-scope filter lets a pair through exactly when one atom
    lies in each selection, in either direction, and otherwise rejects it;
    the detector tests the distance of a candidate pair exactly when the
    filter lets it through.  A pair with no atom in the first selection, or
    with none in the second, is rejected.  With selections {A} and {B},
    A ≠ B, the pair (A, B) is accepted and the pairs (A, A) and (B, B) are
    rejected. *)
Theorem C2_selection_scope_filter
    (sele1_atoms sele2_atoms : list string) (atomA atomB : string) :
  (filter_dual_selection_salt_bridges sele1_atoms sele2_atoms atomA atomB = false ↔
     (atomA ∈ sele1_atoms ∧ atomB ∈ sele2_atoms)
     ∨ (atomA ∈ sele2_atoms ∧ atomB ∈ sele1_atoms))
  ∧ (filter_dual_selection_salt_bridges sele1_atoms sele2_atoms atomA atomB = true ↔
     ¬ ((atomA ∈ sele1_atoms ∧ atomB ∈ sele2_atoms)
        ∨ (atomA ∈ sele2_atoms ∧ atomB ∈ sele1_atoms)))
  ∧ (∀ U molid frame q1 q2 cutoff,
       (atomA, atomB) ∈ distance_queries
          (compute_salt_bridges_run U molid frame (Some q1) (Some q2) cutoff) ↔
       (atomA, atomB) ∈ candidate_pairs U molid frame (Some q1) (Some q2)
       ∧ filter_dual_selection_salt_bridges
           (get_selection_atoms U molid frame q1)
           (get_selection_atoms U molid frame q2) atomA atomB = false)
  ∧ ((¬ atomA ∈ sele1_atoms) ∧ (¬ atomB ∈ sele1_atoms)
     ∨ (¬ atomA ∈ sele2_atoms) ∧ (¬ atomB ∈ sele2_atoms) →
     filter_dual_selection_salt_bridges sele1_atoms sele2_atoms atomA atomB = true)
  ∧ (atomA ≠ atomB →
       filter_dual_selection_salt_bridges [atomA] [atomB] atomA atomB = false
       ∧ filter_dual_selection_salt_bridges [atomA] [atomB] atomA atomA = true
       ∧ filter_dual_selection_salt_bridges [atomA] [atomB] atomB atomB = true).
Proof.
  split; [apply filter_accepts_iff|]. split.
  { rewrite <- filter_accepts_iff.
    destruct (filter_dual_selection_salt_bridges _ _ _ _); naive_solver. }
  split; [intros; apply queried_iff|]. split.
  { intros Hout. apply not_false_iff_true. rewrite filter_accepts_iff. tauto. }
  intros Hne. split; [apply filter_accepts_iff; set_solver|].
  split; apply not_false_iff_true; rewrite filter_accepts_iff; set_solver.
Qed.

(** C3: a candidate pair whose distance is queried yields its record
    (frame, "sb", anion, cation) exactly when the distance is strictly below
    the cutoff: the output is the list of records of the queried pairs with
    such a distance; a distance equal to the cutoff yields no record, a
    distance of cutoff − ε, ε > 0, yields one. *)
Theorem C3_cutoff_is_strict (U : contact_utils) (molid frame : Z)
    (sele_id sele_id2 : option string) (cutoff : pyfloat) (anion cation : string) :
  (anion, cation) ∈ distance_queries
     (compute_salt_bridges_run U molid frame sele_id sele_id2 cutoff) →
  compute_salt_bridges U molid frame sele_id sele_id2 cutoff
    = map (record_of frame)
        (List.filter (λ p, float_lt (compute_distance U molid frame p.1 p.2) cutoff)
           (distance_queries
              (compute_salt_bridges_run U molid frame sele_id sele_id2 cutoff)))
  ∧ ((frame, "sb", anion, cation)
        ∈ compute_salt_bridges U molid frame sele_id sele_id2 cutoff ↔
     float_lt (compute_distance U molid frame anion cation) cutoff = true)
  ∧ (float_eq (compute_distance U molid frame anion cation) cutoff = true →
     (frame, "sb", anion, cation)
        ∉ compute_salt_bridges U molid frame sele_id sele_id2 cutoff)
  ∧ (∀ c eps : Q, cutoff = FFin c → (0 < eps)%Q →
     compute_distance U molid frame anion cation = FFin (c - eps) →
     (frame, "sb", anion, cation)
        ∈ compute_salt_bridges U molid frame sele_id sele_id2 cutoff).
Proof.
  intros Hq. split; [apply run_salt_bridges|].
  rewrite record_reported. split; [naive_solver|]. split.
  - intros Heq%float_eq_not_lt [_ Hlt]. congruence.
  - intros c eps -> Heps Hd. apply record_reported. split; [done|].
    rewrite Hd. by apply float_lt_below.
Qed.

Lemma C3_cutoff_is_strict_witness :
  ("A:ASP:1:OD1", "A:ARG:9:NH1") ∈ distance_queries
     (compute_salt_bridges_run boundary 0 0 None None default_cutoff)
  ∧ (0, "sb", "A:ASP:1:OD1", "A:ARG:9:NH1")
      ∈ compute_salt_bridges boundary 0 0 None None default_cutoff
  ∧ ("A:ASP:1:OD1", "A:LYS:3:NZ") ∈ distance_queries
      (compute_salt_bridges_run boundary 0 0 None None default_cutoff)
  ∧ (0, "sb", "A:ASP:1:OD1", "A:LYS:3:NZ")
      ∉ compute_salt_bridges boundary 0 0 None None default_cutoff.
Proof.
  assert (Hfar : ("A:ASP:1:OD1", "A:ARG:9:NH1") ∈ distance_queries
            (compute_salt_bridges_run boundary 0 0 None None default_cutoff)).
  { apply (bool_decide_unpack _). vm_compute. exact I. }
  assert (Hat : ("A:ASP:1:OD1", "A:LYS:3:NZ") ∈ distance_queries
            (compute_salt_bridges_run boundary 0 0 None None default_cutoff)).
  { apply (bool_decide_unpack _). vm_compute. exact I. }
  split; [exact Hfar|]. split.
  - apply (C3_cutoff_is_strict boundary 0 0 None None default_cutoff
             "A:ASP:1:OD1" "A:ARG:9:NH1" Hfar).
    vm_compute. reflexivity.
  - split; [exact Hat|].
    apply (C3_cutoff_is_strict boundary 0 0 None None default_cutoff
             "A:ASP:1:OD1" "A:LYS:3:NZ" Hat).
    vm_compute. reflexivity.
Defined.

(** C8: with two selection queries, no pair the selection-scope filter
    rejects has its distance queried, and two structures that agree on the
    candidate atoms, on the selections and on the distances of the pairs the
    filter lets through give the same queries and the same contact list,
    whatever distances they hold for the rejected pairs. *)
Theorem C8_rejected_pairs_are_not_queried (U1 U2 : contact_utils)
    (molid frame : Z) (q1 q2 : string) (cutoff : pyfloat) :
  get_anion_atoms U1 molid frame (Some q1) (Some q2)
    = get_anion_atoms U2 molid frame (Some q1) (Some q2) →
  get_cation_atoms U1 molid frame (Some q1) (Some q2)
    = get_cation_atoms U2 molid frame (Some q1) (Some q2) →
  get_selection_atoms U1 molid frame q1 = get_selection_atoms U2 molid frame q1 →
  get_selection_atoms U1 molid frame q2 = get_selection_atoms U2 molid frame q2 →
  (∀ a c,
     filter_dual_selection_salt_bridges
       (get_selection_atoms U1 molid frame q1)
       (get_selection_atoms U1 molid frame q2) a c = false →
     compute_distance U1 molid frame a c = compute_distance U2 molid frame a c) →
  (∀ a c,
     (a, c) ∈ distance_queries
        (compute_salt_bridges_run U1 molid frame (Some q1) (Some q2) cutoff) →
     filter_dual_selection_salt_bridges
       (get_selection_atoms U1 molid frame q1)
       (get_selection_atoms U1 molid frame q2) a c = false)
  ∧ distance_queries
      (compute_salt_bridges_run U1 molid frame (Some q1) (Some q2) cutoff)
    = distance_queries
        (compute_salt_bridges_run U2 molid frame (Some q1) (Some q2) cutoff)
  ∧ compute_salt_bridges U1 molid frame (Some q1) (Some q2) cutoff
    = compute_salt_bridges U2 molid frame (Some q1) (Some q2) cutoff.
Proof.
  intros Han Hcat Hs1 Hs2 Hdist.
  assert (Hrej : ∀ a c,
     (a, c) ∈ distance_queries
        (compute_salt_bridges_run U1 molid frame (Some q1) (Some q2) cutoff) →
     filter_dual_selection_salt_bridges
       (get_selection_atoms U1 molid frame q1)
       (get_selection_atoms U1 molid frame q2) a c = false).
  { intros a c Hin. by apply queried_iff in Hin as [_ ?]. }
  assert (Hqs : distance_queries
      (compute_salt_bridges_run U1 molid frame (Some q1) (Some q2) cutoff)
    = distance_queries
        (compute_salt_bridges_run U2 molid frame (Some q1) (Some q2) cutoff)).
  { rewrite !run_queries. unfold candidate_pairs, selections. simpl.
    by rewrite Han, Hcat, Hs1, Hs2. }
  split; [exact Hrej|]. split; [exact Hqs|].
  rewrite !run_salt_bridges, <- Hqs. f_equal.
  apply filter_ext_in. intros [a c] Hin%list_elem_of_In.
  unfold within. simpl. by rewrite (Hdist a c (Hrej a c Hin)).
Qed.

Lemma C8_rejected_pairs_are_not_queried_witness :
  compute_distance scoped 0 0 "A:ASP:1:OD1" "A:ARG:9:NH1"
    ≠ compute_distance scoped' 0 0 "A:ASP:1:OD1" "A:ARG:9:NH1"
  ∧ compute_salt_bridges scoped 0 0 (Some "resid 1") (Some "resid 3") default_cutoff
    = compute_salt_bridges scoped' 0 0 (Some "resid 1") (Some "resid 3") default_cutoff.
Proof.
  split; [discriminate|].
  apply (C8_rejected_pairs_are_not_queried scoped scoped' 0 0
           "resid 1" "resid 3" default_cutoff); try reflexivity.
  intros a c [[_ Hc]|[_ Hc]]%filter_accepts_iff;
    apply list_elem_of_singleton in Hc; subst c; reflexivity.
Defined.

(** C9: when either selection query is absent, no pair is skipped: the
    distance of every pair of the anion × cation cross product is queried,
    in loop order, and a pair is reported exactly when its distance is
    below the cutoff. *)
Theorem C9_no_filter_without_both_selections (U : contact_utils)
    (molid frame : Z) (sele_id sele_id2 : option string) (cutoff : pyfloat) :
  sele_id = None ∨ sele_id2 = None →
  distance_queries (compute_salt_bridges_run U molid frame sele_id sele_id2 cutoff)
    = list_prod (get_anion_atoms U molid frame sele_id sele_id2)
                (get_cation_atoms U molid frame sele_id sele_id2)
  ∧ compute_salt_bridges U molid frame sele_id sele_id2 cutoff
    = map (record_of frame)
        (List.filter (λ p, float_lt (compute_distance U molid frame p.1 p.2) cutoff)
           (list_prod (get_anion_atoms U molid frame sele_id sele_id2)
                      (get_cation_atoms U molid frame sele_id sele_id2)))
  ∧ (∀ anion cation,
       (frame, "sb", anion, cation)
          ∈ compute_salt_bridges U molid frame sele_id sele_id2 cutoff ↔
       anion ∈ get_anion_atoms U molid frame sele_id sele_id2
       ∧ cation ∈ get_cation_atoms U molid frame sele_id sele_id2
       ∧ float_lt (compute_distance U molid frame anion cation) cutoff = true).
Proof.
  intros Hnone.
  assert (Hsel : selections U molid frame sele_id sele_id2 = None).
  { unfold selections. destruct Hnone as [-> | ->]; [done|]. by destruct sele_id. }
  assert (Hqs : distance_queries
             (compute_salt_bridges_run U molid frame sele_id sele_id2 cutoff)
           = list_prod (get_anion_atoms U molid frame sele_id sele_id2)
                       (get_cation_atoms U molid frame sele_id sele_id2)).
  { rewrite run_queries, Hsel, passes_none. reflexivity. }
  split; [exact Hqs|]. split.
  - rewrite run_salt_bridges, Hqs. reflexivity.
  - intros anion cation. rewrite record_reported, Hqs.
    rewrite list_elem_of_In, in_prod_iff, <- !list_elem_of_In. tauto.
Qed.

Lemma C9_no_filter_without_both_selections_witness :
  distance_queries
    (compute_salt_bridges_run scoped 0 0 (Some "resid 1") None default_cutoff)
    = [("A:ASP:1:OD1", "A:LYS:3:NZ"); ("A:ASP:1:OD1", "A:ARG:9:NH1")]
  ∧ compute_salt_bridges scoped 0 0 (Some "resid 1") None default_cutoff
    = [(0, "sb", "A:ASP:1:OD1", "A:LYS:3:NZ");
       (0, "sb", "A:ASP:1:OD1", "A:ARG:9:NH1")].
Proof.
  destruct (C9_no_filter_without_both_selections scoped 0 0
              (Some "resid 1") None default_cutoff (or_intror eq_refl))
    as (Hq & Hsb & _).
  split; [exact Hq | exact Hsb].
Defined.

(** C7: the candidate atoms are read from the structure at the frame that is
    being processed, on every call: on a structure whose acidic candidates
    differ between frame 0 and frame 1, the detector run on frame 1 pairs
    the candidates of frame 1, not those of the first frame. *)
Theorem C7_candidates_are_read_per_frame :
  (∀ U molid frame sele_id sele_id2 cutoff anion cation,
     (anion, cation) ∈ distance_queries
        (compute_salt_bridges_run U molid frame sele_id sele_id2 cutoff) →
     anion ∈ (prep_salt_bridge_computation U molid frame sele_id sele_id2).1
     ∧ cation ∈ (prep_salt_bridge_computation U molid frame sele_id sele_id2).2)
  ∧ prep_salt_bridge_computation drifting 0 0 (Some "within 5 of resname LIG") None
    = (["A:ASP:1:OD1"], ["A:LYS:3:NZ"])
  ∧ prep_salt_bridge_computation drifting 0 1 (Some "within 5 of resname LIG") None
    = (["A:GLU:7:OE1"], ["A:LYS:3:NZ"])
  ∧ compute_salt_bridges drifting 0 1 (Some "within 5 of resname LIG") None
      default_cutoff
    = [(1, "sb", "A:GLU:7:OE1", "A:LYS:3:NZ")].
Proof.
  split; [|by vm_compute].
  intros U molid frame sele_id sele_id2 cutoff anion cation.
  rewrite run_queries, list_elem_of_In, filter_In, <- list_elem_of_In.
  intros [Hin _]. by apply candidate_pairs_elem in Hin.
Qed.

End DetectorClaims.

(** ** Substring test and splitting *)

Section StringFacts.
Import PyStr.

Lemma startswith_spec (sub s : string) :
  startswith sub s = true ↔ ∃ post, s = sub +:+ post.
Proof.
  revert s. induction sub as [|a sub IH]; intros s; simpl.
  - split; [intros _; by exists s | done].
  - destruct s as [|b s]; simpl.
    + split; [done | by intros [? ?]].
    + rewrite andb_true_iff, Ascii.eqb_eq, IH. split.
      * intros [-> [post ->]]. by exists post.
      * intros [post Heq]. injection Heq as -> ->. eauto.
Qed.

Lemma contains_spec (sub s : string) :
  contains sub s = true ↔ ∃ pre post, s = pre +:+ sub +:+ post.
Proof.
  induction s as [|b s IH]; simpl contains; rewrite orb_true_iff, startswith_spec.
  - split.
    + intros [[post ->]|?]; [|done]. by exists "", post.
    + intros ([|? ?] & post & Heq); [|done]. left. by exists post.
  - rewrite IH. split.
    + intros [[post ->]|(pre & post & ->)]; [by exists "", post|].
      by exists (String b pre), post.
    + intros ([|a pre] & post & Heq).
      * left. by exists post.
      * right. injection Heq as -> ->. by exists pre, post.
Qed.

Lemma split_cons (sep : ascii) (s : string) :
  ∃ tok toks, split sep s = tok :: toks.
Proof.
  induction s as [|c s (tok & toks & IH)]; simpl; [by eauto|].
  destruct (Ascii.eqb c sep); [by eauto|]. rewrite IH. by eauto.
Qed.

Lemma concat_cons (sep tok : string) (tok' : string) (toks : list string) :
  String.concat sep (tok :: tok' :: toks)
  = tok +:+ sep +:+ String.concat sep (tok' :: toks).
Proof. reflexivity. Qed.

Lemma concat_String (sep : string) (c : ascii) (tok : string) (toks : list string) :
  String.concat sep (String c tok :: toks)
  = String c (String.concat sep (tok :: toks)).
Proof. by destruct toks. Qed.

(** Joining the tokens with the separator gives the argument back. *)
Lemma split_join (sep : ascii) (s : string) :
  String.concat (String sep "") (split sep s) = s.
Proof.
  induction s as [|c s IH]; simpl; [done|].
  destruct (split_cons sep s) as (tok & toks & Hs). rewrite Hs in *.
  destruct (Ascii.eqb c sep) eqn:Hc.
  - apply Ascii.eqb_eq in Hc as ->. by rewrite concat_cons, IH.
  - by rewrite concat_String, IH.
Qed.

(** No token contains the separator. *)
Lemma split_free (sep : ascii) (s : string) :
  Forall (free_of sep) (split sep s).
Proof.
  induction s as [|c s IH]; simpl; [by repeat constructor|].
  destruct (Ascii.eqb c sep) eqn:Hc; [by constructor|].
  apply Ascii.eqb_neq in Hc.
  destruct (split sep s) as [|tok toks]; [by repeat constructor|].
  inversion_clear IH. by repeat constructor.
Qed.

Lemma split_app_free (sep : ascii) (tok s : string) :
  free_of sep tok →
  split sep (tok +:+ String sep s) = tok :: split sep s.
Proof.
  induction tok as [|c tok IH]; simpl.
  - intros _. by rewrite Ascii.eqb_refl.
  - intros [Hc Hfree]. apply Ascii.eqb_neq in Hc.
    change (String c tok +:+ String sep s) with (String c (tok +:+ String sep s)).
    simpl. by rewrite Hc, IH.
Qed.

Lemma split_free_token (sep : ascii) (tok : string) :
  free_of sep tok → split sep tok = [tok].
Proof.
  induction tok as [|c tok IH]; simpl; [done|].
  intros [Hc Hfree]. apply Ascii.eqb_neq in Hc. by rewrite Hc, IH.
Qed.

(** Splitting the join of separator-free tokens gives the tokens back. *)
Lemma split_concat (sep : ascii) (toks : list string) :
  toks ≠ [] → Forall (free_of sep) toks →
  split sep (String.concat (String sep "") toks) = toks.
Proof.
  induction toks as [|tok toks IH]; [done|]. intros _ Hfree.
  inversion_clear Hfree as [|? ? Htok Htoks].
  destruct toks as [|tok' toks]; [by apply split_free_token|].
  rewrite concat_cons.
  change (String sep "" +:+ ?s) with (String sep s).
  rewrite split_app_free by done. f_equal. by apply IH.
Qed.

End StringFacts.

(** ** parse_itypes *)

Section ParseItypesClaims.
Import PyStr Flare.

(** C10: [parse_itypes] returns the list of the 16 known tags whenever
    "all" occurs somewhere in its argument, as in "sb,all" and "ball";
    otherwise it returns the set of the comma-separated tokens of the
    argument, whatever they are: the tokens, joined by commas, give the
    argument back, no token contains a comma, and parsing the comma-join of
    any comma-free tokens without "all" gives the set of these tokens. *)
Theorem C10_parse_itypes (itype_argument : string) :
  ((∃ pre post, itype_argument = pre +:+ "all" +:+ post) →
     parse_itypes itype_argument = ItypeList all_itypes)
  ∧ (¬ (∃ pre post, itype_argument = pre +:+ "all" +:+ post) →
     parse_itypes itype_argument
       = ItypeSet (list_to_set (split "," itype_argument))
     ∧ String.concat "," (split "," itype_argument) = itype_argument
     ∧ Forall (free_of ",") (split "," itype_argument))
  ∧ (∀ toks : list string,
       toks ≠ [] → Forall (free_of ",") toks →
       itype_argument = String.concat "," toks →
       ¬ (∃ pre post, itype_argument = pre +:+ "all" +:+ post) →
       parse_itypes itype_argument = ItypeSet (list_to_set toks))
  ∧ length all_itypes = 16%nat
  ∧ NoDup all_itypes
  ∧ parse_itypes "sb,all" = ItypeList all_itypes
  ∧ parse_itypes "ball" = ItypeList all_itypes
  ∧ parse_itypes "sb,bogus" = ItypeSet {[ "sb"; "bogus" ]}
  ∧ "bogus" ∉ all_itypes.
Proof.
  assert (Hno : ¬ (∃ pre post, itype_argument = pre +:+ "all" +:+ post) →
     parse_itypes itype_argument
       = ItypeSet (list_to_set (split "," itype_argument))).
  { rewrite <- contains_spec. intros Hc%not_true_is_false.
    unfold parse_itypes. by rewrite Hc. }
  split.
  { intros Hc%contains_spec. unfold parse_itypes. by rewrite Hc. }
  split.
  { intros Hc. split; [by apply Hno|]. split; [apply split_join | apply split_free]. }
  split.
  { intros toks Hne Hfree -> Hc. rewrite (Hno Hc). by rewrite split_concat. }
  split; [done|].
  split; [apply (bool_decide_unpack _); vm_compute; exact I|].
  split; [done|]. split; [done|].
  split; [|apply (bool_decide_unpack ("bogus" ∉ all_itypes)); vm_compute; exact I].
  vm_compute. reflexivity.
Qed.

End ParseItypesClaims.

(** ** The loop of [create_graph] *)

Section BuilderFacts.
Import Flare FlareFacts.
Context (resi_labels : option (gmap string resi_label)).

Lemma ltb_irrefl (k : string) : String.ltb k k = false.
Proof.
  unfold String.ltb. destruct (String.compare k k) eqn:Hc; try done.
  pose proof (String.compare_antisym k k) as Ha. rewrite Hc in Ha. done.
Qed.

Lemma ltb_neq (k1 k2 : string) : String.ltb k1 k2 = true → k1 ≠ k2.
Proof. intros Hlt ->. by rewrite ltb_irrefl in Hlt. Qed.

Lemma ltb_total (k1 k2 : string) :
  k1 ≠ k2 → String.ltb k2 k1 = false → String.ltb k1 k2 = true.
Proof.
  unfold String.ltb. intros Hne. rewrite (String.compare_antisym k1 k2).
  destruct (String.compare k2 k1) eqn:Hc; try done.
  apply String.compare_eq_iff in Hc. congruence.
Qed.

Lemma ltb_asym (k1 k2 : string) :
  String.ltb k1 k2 = true → String.ltb k2 k1 = false.
Proof.
  unfold String.ltb. rewrite (String.compare_antisym k1 k2).
  by destruct (String.compare k2 k1).
Qed.

(** After the swap the first key is the smaller one. *)
Lemma canonical_lt (k1 k2 : string) :
  k1 ≠ k2 → String.ltb (canonical k1 k2).1 (canonical k1 k2).2 = true.
Proof.
  intros Hne. unfold canonical, PyStr.gt.
  destruct (String.ltb k2 k1) eqn:Hlt; simpl; [done|]. by apply ltb_total.
Qed.

(** The swap forgets the order in which the two keys were given. *)
Lemma canonical_sym (k1 k2 : string) : k1 ≠ k2 → canonical k1 k2 = canonical k2 k1.
Proof.
  intros Hne. unfold canonical, PyStr.gt.
  destruct (String.ltb k2 k1) eqn:H21, (String.ltb k1 k2) eqn:H12; try done.
  - apply ltb_asym in H21. congruence.
  - apply ltb_total in H21; [congruence | done].
Qed.

Lemma canonical_elems (k1 k2 : string) :
  canonical k1 k2 = (k1, k2) ∨ canonical k1 k2 = (k2, k1).
Proof. unfold canonical. destruct (PyStr.gt k1 k2); auto. Qed.

Lemma residue_key_strip (a : atom) : residue_key (take 3 a) = residue_key a.
Proof. unfold residue_key. by rewrite take_idemp. Qed.

Lemma keys_lt (c : stripped) :
  self_contact c = false → String.ltb (keys c).1 (keys c).2 = true.
Proof.
  destruct c as [[[f t] a1] a2]. unfold self_contact, keys.
  intros Hne%String.eqb_neq. by apply canonical_lt.
Qed.

(** The label look-up raises no [KeyError]. *)
Lemma look_up_labels_total (k1 k2 : string) :
  ∃ r, look_up_labels resi_labels k1 k2 = Some r.
Proof.
  unfold look_up_labels. destruct (truthy resi_labels); [|by eauto].
  repeat case_bool_decide; simpl; try by eauto.
  destruct (default ∅ resi_labels !! k1) as [l1|] eqn:H1; simpl.
  2:{ exfalso. apply not_elem_of_dom in H1. done. }
  destruct (default ∅ resi_labels !! k2) as [l2|] eqn:H2; simpl; [by eauto|].
  exfalso. apply not_elem_of_dom in H2. done.
Qed.

(** The look-up omits the contact exactly when the table is non-empty and
    lacks one of the two keys. *)
Lemma look_up_labels_omitted (k1 k2 : string) :
  look_up_labels resi_labels k1 k2 = Some Omitted ↔
  ∃ m, resi_labels = Some m ∧ m ≠ ∅ ∧ (m !! k1 = None ∨ m !! k2 = None).
Proof.
  unfold look_up_labels, truthy. destruct resi_labels as [m|]; simpl.
  2:{ split; [done | by intros (? & ? & _)]. }
  case_bool_decide as Hm; simpl.
  { split; [done | intros (? & ? & ? & _); by simplify_eq]. }
  repeat case_bool_decide; simpl.
  - split; [|done]. intros _. exists m. rewrite <- !not_elem_of_dom. auto.
  - split; [|done]. intros _. exists m. rewrite <- !not_elem_of_dom. auto.
  - split; [|done]. intros _. exists m. rewrite <- !not_elem_of_dom. auto.
  - split.
    + destruct (m !! k1); simpl; [|done]. by destruct (m !! k2).
    + intros (? & ? & _ & Hk); simplify_eq.
      rewrite <- !not_elem_of_dom in Hk. tauto.
Qed.

(** One iteration of the loop, by the three ways a contact can go. *)
Lemma add_contact_cases (st : builder) (c : stripped) :
  (self_contact c = true ∧ add_contact resi_labels st c = Some st)
  ∨ (self_contact c = false
     ∧ look_up_labels resi_labels (keys c).1 (keys c).2 = Some Omitted
     ∧ add_contact resi_labels st c
       = Some (Builder (resi_edges st) (ret_edges st) (stdout st ++ [c])))
  ∨ (∃ n1 n2,
       self_contact c = false
       ∧ look_up_labels resi_labels (keys c).1 (keys c).2 = Some (Named n1 n2)
       ∧ ((resi_edges st !! contact_key c = None
           ∧ add_contact resi_labels st c
             = Some (Builder
                       (<[contact_key c := length (ret_edges st)]> (resi_edges st))
                       (ret_edges st ++ [Edge n1 n2 [c.1.1.1]])
                       (stdout st)))
          ∨ (∃ i, resi_edges st !! contact_key c = Some i
             ∧ add_contact resi_labels st c
               = Some (Builder (resi_edges st)
                         (alter (append_frame c.1.1.1) i (ret_edges st))
                         (stdout st))))).
Proof.
  destruct c as [[[f t] a1] a2]. unfold self_contact, contact_key, keys, add_contact.
  destruct (String.eqb (residue_key a1) (residue_key a2)); [by left|]. right.
  destruct (canonical (residue_key a1) (residue_key a2)) as [k1 k2]. simpl.
  destruct (look_up_labels_total k1 k2) as [[|n1 n2] Hr]; rewrite Hr; simpl;
    [by left|]. right. exists n1, n2. do 2 (split; [done|]).
  case_bool_decide as Hdom.
  - left. apply not_elem_of_dom in Hdom. split; [done|]. simpl.
    rewrite lookup_insert_eq. simpl. do 2 f_equal.
    rewrite alter_app_r_alt by done. by rewrite Nat.sub_diag.
  - right. apply elem_of_dom in Hdom as [i Hi].
    exists i. split; [done|]. by rewrite Hi.
Qed.

(** No iteration raises. *)
Lemma add_contact_total (st : builder) (c : stripped) :
  ∃ st', add_contact resi_labels st c = Some st'.
Proof.
  destruct (add_contact_cases st c)
    as [[_ ->]|[(_ & _ & ->)|(? & ? & _ & _ & [[_ ->]|(? & _ & ->)])]]; eauto.
Qed.

Lemma add_contacts_total (cs : list stripped) (st : builder) :
  ∃ st', add_contacts resi_labels st cs = Some st'.
Proof.
  revert st. induction cs as [|c cs IH]; intros st; simpl; [by eauto|].
  destruct (add_contact_total st c) as [st1 ->]. simpl. apply IH.
Qed.

End BuilderFacts.

Section ConsistencyFacts.
Import Flare FlareFacts.
Context (resi_labels : option (gmap string resi_label)).

Lemma frames_for_snoc (k : string) (cs : list stripped) (c : stripped) :
  frames_for resi_labels k (cs ++ [c])
  = frames_for resi_labels k cs
    ++ (if kept resi_labels c && String.eqb (contact_key c) k
        then [c.1.1.1] else []).
Proof.
  unfold frames_for. rewrite List.filter_app, fmap_app. f_equal. simpl.
  by destruct (kept resi_labels c && String.eqb (contact_key c) k).
Qed.

Lemma frames_for_elem (k : string) (cs : list stripped) (f : Z) :
  f ∈ frames_for resi_labels k cs ↔
  ∃ c, c ∈ cs ∧ kept resi_labels c = true ∧ contact_key c = k ∧ c.1.1.1 = f.
Proof.
  unfold frames_for. rewrite list_elem_of_fmap. split.
  - intros (c & -> & Hin). apply list_elem_of_In, filter_In in Hin as [Hin Hc].
    apply andb_true_iff in Hc as [Hk Hkey%String.eqb_eq].
    exists c. by rewrite list_elem_of_In.
  - intros (c & Hin & Hk & Hkey & <-). exists c. split; [done|].
    apply list_elem_of_In, filter_In. rewrite <- list_elem_of_In.
    split; [done|]. rewrite Hk. by apply String.eqb_eq.
Qed.

Lemma frames_for_unfiled (k : string) (cs : list stripped) :
  (∀ c, c ∈ cs → kept resi_labels c = true → contact_key c ≠ k) →
  frames_for resi_labels k cs = [].
Proof.
  intros Hno. destruct (frames_for resi_labels k cs) as [|f fs] eqn:Hfs; [done|].
  assert (f ∈ frames_for resi_labels k cs) as Hf by (rewrite Hfs; left).
  apply frames_for_elem in Hf as (c & Hin & Hk & Hkey & _).
  by destruct (Hno c Hin Hk).
Qed.

Lemma consistent_init : consistent resi_labels [] init.
Proof.
  split; simpl.
  - intros k k' i Hk. by rewrite lookup_empty in Hk.
  - intros i Hi. lia.
  - intros c Hc. by apply elem_of_nil in Hc.
  - intros k i Hk. by rewrite lookup_empty in Hk.
Qed.

(** A contact that is not kept leaves the edges as they are. *)
Lemma consistent_skip (cs : list stripped) (st st' : builder) (c : stripped) :
  consistent resi_labels cs st →
  kept resi_labels c = false →
  resi_edges st' = resi_edges st → ret_edges st' = ret_edges st →
  consistent resi_labels (cs ++ [c]) st'.
Proof.
  intros [Hd Ho Hf He] Hk Hr Hl. split; rewrite ?Hr, ?Hl; try done.
  - intros c' [Hin| ->%list_elem_of_singleton]%elem_of_app Hk'; [by apply Hf|].
    congruence.
  - intros k i Hki.
    destruct (He k i Hki) as (e & k1 & k2 & ? & ? & ? & ? & Hfr & c0 & ? & ? & ?).
    exists e, k1, k2. rewrite frames_for_snoc, Hk. simpl.
    rewrite app_nil_r. do 5 (split; [done|]).
    exists c0. by rewrite elem_of_app; auto.
Qed.

(** A kept contact with a new key creates the edge that holds its frame. *)
Lemma consistent_new (cs : list stripped) (st : builder) (c : stripped)
    (n1 n2 : string) :
  consistent resi_labels cs st →
  self_contact c = false →
  look_up_labels resi_labels (keys c).1 (keys c).2 = Some (Named n1 n2) →
  resi_edges st !! contact_key c = None →
  consistent resi_labels (cs ++ [c])
    (Builder (<[contact_key c := length (ret_edges st)]> (resi_edges st))
             (ret_edges st ++ [Edge n1 n2 [c.1.1.1]])
             (stdout st)).
Proof.
  intros [Hd Ho Hf He] Hself Hlook Hnew.
  assert (Hkept : kept resi_labels c = true).
  { unfold kept. by rewrite Hself, Hlook. }
  assert (Hvalid : ∀ k i, resi_edges st !! k = Some i → (i < length (ret_edges st))%nat).
  { intros k i Hki. destruct (He k i Hki) as (e & ? & ? & He' & _).
    by apply lookup_lt_Some in He'. }
  split; simpl.
  - intros k k' i. rewrite !lookup_insert.
    repeat case_decide; intros; simplify_eq; try done.
    + exfalso. pose proof (Hvalid _ _ ltac:(eassumption)). lia.
    + exfalso. pose proof (Hvalid _ _ ltac:(eassumption)). lia.
    + by eapply Hd.
  - intros i. rewrite length_app. simpl. intros Hi.
    destruct (decide (i = length (ret_edges st))) as [-> | Hne].
    + exists (contact_key c). by rewrite lookup_insert_eq.
    + destruct (Ho i ltac:(lia)) as [k Hk]. exists k.
      rewrite lookup_insert_ne; [done|]. intros <-. congruence.
  - intros c' Hin Hk'. rewrite lookup_insert. case_decide; [by eauto|].
    apply elem_of_app in Hin as [Hin| ->%list_elem_of_singleton]; [by apply Hf|].
    done.
  - intros k i. rewrite lookup_insert. case_decide as Hkey.
    + intros [= <-]. subst k.
      exists (Edge n1 n2 [c.1.1.1]), (keys c).1, (keys c).2.
      rewrite list_lookup_middle by done.
      split; [done|]. split; [done|]. split; [by apply keys_lt|].
      split; [done|]. simpl. rewrite frames_for_snoc, Hkept, String.eqb_refl.
      split.
      * rewrite frames_for_unfiled; [done|].
        intros c' Hin Hk' Heq. destruct (Hf c' Hin Hk') as [j Hj]. congruence.
      * exists c. rewrite elem_of_app, list_elem_of_singleton.
        by destruct (keys c); auto.
    + intros Hki.
      destruct (He k i Hki) as (e & k1 & k2 & Hi & ? & ? & ? & Hfr & c0 & ? & ? & ?).
      exists e, k1, k2. rewrite lookup_app_l by (by eapply lookup_lt_Some).
      do 4 (split; [done|]). rewrite frames_for_snoc.
      apply String.eqb_neq in Hkey. rewrite Hkey, andb_false_r.
      rewrite app_nil_r. split; [done|].
      exists c0. by rewrite elem_of_app; auto.
Qed.

(** A kept contact with a known key adds its frame to the edge filed under
    that key and to no other. *)
Lemma consistent_old (cs : list stripped) (st : builder) (c : stripped)
    (n1 n2 : string) (i : nat) :
  consistent resi_labels cs st →
  self_contact c = false →
  look_up_labels resi_labels (keys c).1 (keys c).2 = Some (Named n1 n2) →
  resi_edges st !! contact_key c = Some i →
  consistent resi_labels (cs ++ [c])
    (Builder (resi_edges st)
             (alter (append_frame c.1.1.1) i (ret_edges st))
             (stdout st)).
Proof.
  intros [Hd Ho Hf He] Hself Hlook Hold.
  assert (Hkept : kept resi_labels c = true).
  { unfold kept. by rewrite Hself, Hlook. }
  split; simpl; [done|by rewrite length_alter|..].
  - intros c' [Hin| ->%list_elem_of_singleton]%elem_of_app Hk'; [by apply Hf|].
    by eauto.
  - intros k j Hkj.
    destruct (He k j Hkj) as (e & k1 & k2 & Hj & ? & ? & ? & Hfr & c0 & ? & ? & ?).
    assert (∃ c1, c1 ∈ cs ++ [c] ∧ self_contact c1 = false ∧ keys c1 = (k1, k2))
      as Hmade by (exists c0; by rewrite elem_of_app; auto).
    rewrite frames_for_snoc, Hkept. simpl.
    destruct (decide (i = j)) as [-> | Hne].
    + assert (contact_key c = k) as Hkey by (by eapply Hd).
      exists (append_frame c.1.1.1 e), k1, k2.
      rewrite list_lookup_alter_eq, Hj. simpl.
      do 4 (split; [done|]). rewrite Hfr.
      apply String.eqb_eq in Hkey. by rewrite Hkey.
    + exists e, k1, k2. rewrite list_lookup_alter_ne by done.
      do 4 (split; [done|]).
      destruct (String.eqb (contact_key c) k) eqn:Hkey.
      * apply String.eqb_eq in Hkey. subst k. congruence.
      * by rewrite app_nil_r.
Qed.

(** Every iteration keeps the builder consistent. *)
Lemma add_contact_consistent (cs : list stripped) (st st' : builder) (c : stripped) :
  consistent resi_labels cs st →
  add_contact resi_labels st c = Some st' →
  consistent resi_labels (cs ++ [c]) st'.
Proof.
  intros Hcons Hadd.
  destruct (add_contact_cases resi_labels st c)
    as [[Hself Heq]|[(Hself & Hlook & Heq)
        |(n1 & n2 & Hself & Hlook & [[Hnew Heq]|(i & Hold & Heq)])]];
    rewrite Heq in Hadd; injection Hadd as <-.
  - apply (consistent_skip cs st); try done. unfold kept. by rewrite Hself.
  - apply (consistent_skip cs st); try done. unfold kept.
    by rewrite Hlook, andb_false_r.
  - by apply consistent_new.
  - by eapply consistent_old.
Qed.

Lemma add_contacts_consistent (cs rest : list stripped) (st st' : builder) :
  consistent resi_labels cs st →
  add_contacts resi_labels st rest = Some st' →
  consistent resi_labels (cs ++ rest) st'.
Proof.
  revert cs st. induction rest as [|c rest IH]; intros cs st Hcons; simpl.
  - intros [= <-]. by rewrite app_nil_r.
  - destruct (add_contact resi_labels st c) as [st1|] eqn:Hadd; simpl; [|done].
    intros Hrest. rewrite cons_middle, app_assoc.
    eapply IH; [|done]. by eapply add_contact_consistent.
Qed.

(** The loop of [create_graph] ends, in a consistent builder. *)
Lemma build_consistent (contacts : list contact) :
  ∃ st, build resi_labels contacts = Some st
        ∧ consistent resi_labels (strip <$> contacts) st.
Proof.
  unfold build.
  destruct (add_contacts_total resi_labels (strip <$> contacts) init) as [st Hst].
  exists st. split; [done|].
  exact (add_contacts_consistent [] _ init st consistent_init Hst).
Qed.

End ConsistencyFacts.

(** ** Finalization: [sorted(set(frames))] *)

Section FinalizeFacts.
Import Flare FlareFacts.





End FinalizeFacts.

(** ** One iteration, by case *)

Section StepFacts.
Import Flare FlareFacts.
Context (resi_labels : option (gmap string resi_label)).

Lemma self_contact_strip (c : contact) :
  self_contact (strip c)
  = String.eqb (residue_key (c_atom1 c)) (residue_key (c_atom2 c)).
Proof. unfold self_contact, strip. by rewrite !residue_key_strip. Qed.

Lemma keys_strip (c : contact) :
  keys (strip c) = canonical (residue_key (c_atom1 c)) (residue_key (c_atom2 c)).
Proof. unfold keys, strip. by rewrite !residue_key_strip. Qed.

Lemma add_contact_self (st : builder) (c : stripped) :
  self_contact c = true → add_contact resi_labels st c = Some st.
Proof.
  intros Hself. destruct (add_contact_cases resi_labels st c)
    as [[_ Heq]|[(Hs & _)|(? & ? & Hs & _)]]; [done|congruence..].
Qed.

Lemma add_contact_omitted (st : builder) (c : stripped) :
  self_contact c = false →
  look_up_labels resi_labels (keys c).1 (keys c).2 = Some Omitted →
  add_contact resi_labels st c
  = Some (Builder (resi_edges st) (ret_edges st) (stdout st ++ [c])).
Proof.
  intros Hself Hlook. destruct (add_contact_cases resi_labels st c)
    as [[Hs _]|[(_ & _ & Heq)|(? & ? & _ & Hl & _)]]; [congruence|done|congruence].
Qed.

Lemma add_contact_new (st : builder) (c : stripped) (n1 n2 : string) :
  self_contact c = false →
  look_up_labels resi_labels (keys c).1 (keys c).2 = Some (Named n1 n2) →
  resi_edges st !! contact_key c = None →
  add_contact resi_labels st c
  = Some (Builder (<[contact_key c := length (ret_edges st)]> (resi_edges st))
                  (ret_edges st ++ [Edge n1 n2 [c.1.1.1]])
                  (stdout st)).
Proof.
  intros Hself Hlook Hnew. destruct (add_contact_cases resi_labels st c)
    as [[Hs _]|[(_ & Hl & _)|(m1 & m2 & _ & Hl & [[_ Heq]|(i & Hi & _)])]];
    try congruence.
Qed.

Lemma add_contact_old (st : builder) (c : stripped) (n1 n2 : string) (i : nat) :
  self_contact c = false →
  look_up_labels resi_labels (keys c).1 (keys c).2 = Some (Named n1 n2) →
  resi_edges st !! contact_key c = Some i →
  add_contact resi_labels st c
  = Some (Builder (resi_edges st)
                  (alter (append_frame c.1.1.1) i (ret_edges st))
                  (stdout st)).
Proof.
  intros Hself Hlook Hold. destruct (add_contact_cases resi_labels st c)
    as [[Hs _]|[(_ & Hl & _)|(m1 & m2 & _ & Hl & [[Hn _]|(j & Hj & Heq)])]];
    try congruence.
Qed.

End StepFacts.

(** ** The graph builder: merging, self contacts, label filter, frames *)

Section BuilderClaims.
Import Flare FlareFacts.

Lemma add_contacts_one_pair (k1 k2 : string) (cs : list stripped)
    (fs : list Z) (out : list stripped) :
  Forall (λ c, self_contact c = false ∧ keys c = (k1, k2)) cs →
  add_contacts None (Builder {[ k1 +:+ k2 := 0%nat ]} [Edge k1 k2 fs] out) cs
  = Some (Builder {[ k1 +:+ k2 := 0%nat ]}
                  [Edge k1 k2 (fs ++ ((λ c : stripped, c.1.1.1) <$> cs))] out).
Proof.
  revert fs. induction cs as [|c cs IH]; intros fs Hall; simpl.
  - by rewrite app_nil_r.
  - apply Forall_cons in Hall as [[Hself Hkeys] Hall].
    rewrite (add_contact_old None _ c k1 k2 0); simpl.
    + unfold append_frame. simpl. rewrite IH by done. by rewrite <- app_assoc.
    + done.
    + by rewrite Hkeys.
    + unfold contact_key. rewrite Hkeys. simpl. apply lookup_singleton_eq.
Qed.

(** Without a label table, contacts that all have the same two residue keys
    give one edge between these keys, with the sorted set of their frames. *)
Lemma create_graph_one_pair (k1 k2 : string) (c : contact) (cs : list contact) :
  Forall (λ c, self_contact (strip c) = false ∧ keys (strip c) = (k1, k2)) (c :: cs) →
  create_graph (c :: cs) None
  = Some (Flare [Edge k1 k2 (sorted_set (c_frame <$> c :: cs))] None None).
Proof.
  intros [[Hself Hkeys] Hall]%Forall_cons.
  unfold create_graph, build. rewrite fmap_cons. cbn [add_contacts].
  rewrite (add_contact_new None init (strip c) k1 k2);
    [|done|by rewrite Hkeys|apply lookup_empty].
  unfold contact_key. rewrite Hkeys. simpl.
  rewrite insert_empty, add_contacts_one_pair by (by apply Forall_fmap).
  simpl. unfold finalize. simpl. do 4 f_equal.
  by rewrite <- list_fmap_compose.
Qed.

(** Records (5, "sb", X, Y) and (7, "sb", Y, X) between distinct residues
    give one edge between the two residue keys, with frames [5, 7]. *)
Lemma canonical_merge (atomX atomY : atom) :
  residue_key atomX ≠ residue_key atomY →
  create_graph [Contact 5 "sb" atomX atomY []; Contact 7 "sb" atomY atomX []] None
  = Some (Flare [Edge (canonical (residue_key atomX) (residue_key atomY)).1
                      (canonical (residue_key atomX) (residue_key atomY)).2
                      [5; 7]] None None).
Proof.
  intros Hne.
  rewrite (create_graph_one_pair
             (canonical (residue_key atomX) (residue_key atomY)).1
             (canonical (residue_key atomX) (residue_key atomY)).2).
  - done.
  - repeat constructor; rewrite ?self_contact_strip, ?keys_strip; simpl.
    + by apply String.eqb_neq.
    + by destruct (canonical _ _).
    + by apply String.eqb_neq.
    + rewrite (canonical_sym (residue_key atomY)) by done.
      by destruct (canonical _ _).
Qed.

(** Two kept contacts of the input are filed under the same edge exactly
    when their contact keys, the concatenations of their two residue keys,
    are equal; contacts with equal canonical pairs are among them. *)
Lemma same_edge_iff (resi_labels : option (gmap string resi_label))
    (contacts : list contact) (st : builder) (c c' : contact) :
  build resi_labels contacts = Some st →
  c ∈ contacts → c' ∈ contacts →
  kept resi_labels (strip c) = true → kept resi_labels (strip c') = true →
  ((∃ i, mapped_to resi_labels st (strip c) i
         ∧ mapped_to resi_labels st (strip c') i)
   ↔ contact_key (strip c) = contact_key (strip c'))
  ∧ (keys (strip c) = keys (strip c') →
     contact_key (strip c) = contact_key (strip c')).
Proof.
  intros Hst Hc Hc' Hk Hk'.
  destruct (build_consistent resi_labels contacts) as (st0 & Hst0 & [Hd Ho Hf He]).
  rewrite Hst in Hst0. injection Hst0 as <-.
  split; [|unfold contact_key; by intros ->]. split.
  - intros (i & [_ Hi] & [_ Hi']). by eapply Hd.
  - intros Heq.
    destruct (Hf (strip c)) as [i Hi]; [by apply list_elem_of_fmap_2|done|].
    exists i. unfold mapped_to. by rewrite <- Heq.
Qed.


(** C4: a contact whose two atoms have the same residue key changes
    nothing: no edge is created, none is modified.  Every edge of the graph
    was created for the two residue keys of a contact of the input, and
    these are distinct; without a label table they are the names of the
    edge. *)
Theorem C4_no_self_loop (contacts : list contact)
    (resi_labels : option (gmap string resi_label)) :
  (∀ st c, residue_key (c_atom1 c) = residue_key (c_atom2 c) →
     add_contact resi_labels st (strip c) = Some st)
  ∧ ∃ g, create_graph contacts resi_labels = Some g
      ∧ ∀ e, e ∈ edges g →
          ∃ c, c ∈ contacts
            ∧ (keys (strip c)).1 ≠ (keys (strip c)).2
            ∧ {[ (keys (strip c)).1; (keys (strip c)).2 ]}
              = ({[ residue_key (c_atom1 c); residue_key (c_atom2 c) ]} : gset string)
            ∧ look_up_labels resi_labels (keys (strip c)).1 (keys (strip c)).2
              = Some (Named (name1 e) (name2 e))
            ∧ (truthy resi_labels = false →
               name1 e = (keys (strip c)).1 ∧ name2 e = (keys (strip c)).2
               ∧ name1 e ≠ name2 e).
Proof.
  split.
  { intros st c Heq. apply add_contact_self.
    rewrite self_contact_strip. by apply String.eqb_eq. }
  destruct (build_consistent resi_labels contacts) as (st & Hst & [Hd Ho Hf He]).
  eexists. split; [unfold create_graph; by rewrite Hst|]. cbn [edges].
  intros e (e0 & -> & Hin)%list_elem_of_fmap.
  apply list_elem_of_lookup in Hin as [i Hi].
  destruct (Ho i) as [k Hk]; [by eapply lookup_lt_Some|].
  destruct (He k i Hk)
    as (e1 & k1 & k2 & Hi1 & -> & Hlt & Hlook & _ & c0 & Hc0 & Hself & Hkeys).
  rewrite Hi in Hi1. injection Hi1 as <-.
  apply list_elem_of_fmap in Hc0 as (c & -> & Hc).
  exists c. rewrite Hkeys. simpl. split; [done|].
  split; [by apply ltb_neq|]. split.
  { rewrite keys_strip in Hkeys.
    destruct (canonical_elems (residue_key (c_atom1 c)) (residue_key (c_atom2 c)))
      as [Heq|Heq]; rewrite Heq in Hkeys; simplify_eq; set_solver. }
  split; [done|]. intros Htruthy.
  unfold look_up_labels in Hlook. rewrite Htruthy in Hlook.
  injection Hlook as <- <-. split; [done|]. split; [done|]. by apply ltb_neq.
Qed.

(** With a non-empty label table, a contact one of whose residue keys is
    absent from the table changes no edge and ends no run: the iteration
    returns, with the same edges. *)
Lemma label_filter_drops (m : gmap string resi_label) (st : builder) (c : contact) :
  m ≠ ∅ →
  m !! residue_key (c_atom1 c) = None ∨ m !! residue_key (c_atom2 c) = None →
  ∃ out, add_contact (Some m) st (strip c)
         = Some (Builder (resi_edges st) (ret_edges st) out).
Proof.
  intros Hm Hmiss. destruct (self_contact (strip c)) eqn:Hself.
  - exists (stdout st). rewrite add_contact_self by done. by destruct st.
  - exists (stdout st ++ [strip c]). apply add_contact_omitted; [done|].
    apply look_up_labels_omitted. exists m. do 2 (split; [done|]).
    rewrite keys_strip.
    destruct (canonical_elems (residue_key (c_atom1 c)) (residue_key (c_atom2 c)))
      as [-> | ->]; simpl; tauto.
Qed.



End BuilderClaims.


(** ** The salt-bridge detector: further properties *)

Section DetectorExtras.
Import SaltBridges SaltBridgeFacts MoreFacts.

Lemma list_prod_nil_r {A B} (l : list A) : list_prod l (@nil B) = [].
Proof. induction l as [|a l IH]; simpl; [done|]. exact IH. Qed.

Lemma NoDup_list_prod {A B} (l : list A) (l' : list B) :
  NoDup l → NoDup l' → NoDup (list_prod l l').
Proof.
  intros Hl Hl'. induction Hl as [|a l Ha Hl IH]; simpl; [constructor|].
  apply NoDup_app. split; [|split; [|exact IH]].
  - apply (NoDup_fmap_2 (pair a)). exact Hl'.
  - intros [x y] Hin%list_elem_of_In%in_map_iff Hin'%list_elem_of_In%in_prod_iff.
    destruct Hin as (? & [= <- <-] & _). destruct Hin' as [Hx _].
    by apply list_elem_of_In in Hx.
Qed.

Lemma filter_sublist_impl {A} (f g : A → bool) (l : list A) :
  (∀ x, f x = true → g x = true) →
  List.filter f l `sublist_of` List.filter g l.
Proof.
  intros Himpl. induction l as [|a l IH]; simpl; [constructor|].
  destruct (f a) eqn:Hf.
  - rewrite (Himpl a Hf). by constructor.
  - destruct (g a); [by constructor|done].
Qed.

Lemma map_sublist {A B} (f : A → B) (l1 l2 : list A) :
  l1 `sublist_of` l2 → map f l1 `sublist_of` map f l2.
Proof. induction 1; simpl; by constructor. Qed.

Lemma float_lt_widen (d c1 c2 : pyfloat) :
  float_lt d c1 = true →
  float_lt c1 c2 = true ∨ float_eq c1 c2 = true →
  float_lt d c2 = true.
Proof.
  destruct d as [| |d|], c1 as [| |p|], c2 as [| |q|]; simpl;
    try done; try (intros _ [?|?]; done).
  rewrite !negb_true_iff. intros Hd Hpq.
  destruct (Qle_bool q d) eqn:Hqd; [|done]. exfalso.
  apply Qle_bool_iff in Hqd.
  assert (¬ (p <= d)%Q) as Hpd.
  { intros H%Qle_bool_iff. congruence. }
  destruct Hpq as [Hpq|Hpq].
  - assert (¬ (q <= p)%Q) by (intros H%Qle_bool_iff; congruence). lra.
  - apply Qeq_bool_iff in Hpq. lra.
Qed.

(** X1: a record is in the output exactly when it is (frame, "sb", anion,
    cation) for the frame processed, an anion and a cation candidate of that
    frame, a pair the selection test does not skip, and a distance below the
    cutoff. *)
Theorem salt_bridge_records (U : contact_utils) (molid frame : Z)
    (sele_id sele_id2 : option string) (cutoff : pyfloat) (r : salt_bridge) :
  r ∈ compute_salt_bridges U molid frame sele_id sele_id2 cutoff ↔
  ∃ anion cation,
    r = (frame, "sb", anion, cation)
    ∧ anion ∈ get_anion_atoms U molid frame sele_id sele_id2
    ∧ cation ∈ get_cation_atoms U molid frame sele_id sele_id2
    ∧ skipped (selections U molid frame sele_id sele_id2) anion cation = false
    ∧ float_lt (compute_distance U molid frame anion cation) cutoff = true.
Proof.
  split.
  - intros Hr. assert (∃ a c, r = (frame, "sb", a, c)) as (a & c & ->).
    { rewrite run_salt_bridges in Hr.
      apply list_elem_of_In, in_map_iff in Hr as ([a c] & <- & _). by exists a, c. }
    exists a, c. split; [done|].
    apply record_reported in Hr as [Hq Hlt]. rewrite run_queries in Hq.
    apply list_elem_of_In, filter_In in Hq as [Hin Hp].
    apply list_elem_of_In, candidate_pairs_elem in Hin as [? ?].
    unfold passes in Hp. simpl in Hp. apply negb_true_iff in Hp. done.
  - intros (a & c & -> & Ha & Hc & Hs & Hlt). apply record_reported.
    split; [|done]. rewrite run_queries. apply list_elem_of_In, filter_In.
    split; [by apply list_elem_of_In, candidate_pairs_elem|].
    unfold passes. simpl. by rewrite Hs.
Qed.

(** X2: when neither candidate list repeats an atom, no record is reported
    twice and no distance is queried twice. *)
Theorem salt_bridges_reported_once (U : contact_utils) (molid frame : Z)
    (sele_id sele_id2 : option string) (cutoff : pyfloat) :
  NoDup (get_anion_atoms U molid frame sele_id sele_id2) →
  NoDup (get_cation_atoms U molid frame sele_id sele_id2) →
  NoDup (compute_salt_bridges U molid frame sele_id sele_id2 cutoff)
  ∧ NoDup (distance_queries
             (compute_salt_bridges_run U molid frame sele_id sele_id2 cutoff)).
Proof.
  intros Ha Hc.
  assert (Hq : NoDup (distance_queries
             (compute_salt_bridges_run U molid frame sele_id sele_id2 cutoff))).
  { rewrite run_queries. apply NoDup_ListNoDup, List.NoDup_filter, NoDup_ListNoDup.
    unfold candidate_pairs. simpl. by apply NoDup_list_prod. }
  split; [|exact Hq]. rewrite run_salt_bridges.
  apply (NoDup_fmap_2_strong (record_of frame));
    [|by apply NoDup_ListNoDup, List.NoDup_filter, NoDup_ListNoDup].
  intros [a c] [a' c'] _ _. unfold record_of. simpl. congruence.
Qed.

Lemma salt_bridges_reported_once_witness :
  NoDup (compute_salt_bridges scoped 0 0 None None default_cutoff)
  ∧ NoDup (distance_queries
             (compute_salt_bridges_run scoped 0 0 None None default_cutoff)).
Proof.
  apply (salt_bridges_reported_once scoped 0 0 None None default_cutoff);
    apply (bool_decide_unpack _); vm_compute; exact I.
Defined.

(** X3: without anion candidates, or without cation candidates, the output
    is empty and no distance is queried. *)
Theorem salt_bridges_without_candidates (U : contact_utils) (molid frame : Z)
    (sele_id sele_id2 : option string) (cutoff : pyfloat) :
  get_anion_atoms U molid frame sele_id sele_id2 = []
  ∨ get_cation_atoms U molid frame sele_id sele_id2 = [] →
  compute_salt_bridges U molid frame sele_id sele_id2 cutoff = []
  ∧ distance_queries
      (compute_salt_bridges_run U molid frame sele_id sele_id2 cutoff) = [].
Proof.
  intros Hnone.
  assert (Hq : distance_queries
      (compute_salt_bridges_run U molid frame sele_id sele_id2 cutoff) = []).
  { rewrite run_queries. unfold candidate_pairs. simpl.
    destruct Hnone as [-> | ->]; [done|]. by rewrite list_prod_nil_r. }
  split; [|exact Hq]. by rewrite run_salt_bridges, Hq.
Qed.

Lemma salt_bridges_without_candidates_witness :
  compute_salt_bridges barren 0 0 None None default_cutoff = []
  ∧ distance_queries
      (compute_salt_bridges_run barren 0 0 None None default_cutoff) = [].
Proof.
  apply (salt_bridges_without_candidates barren 0 0 None None default_cutoff).
  left. reflexivity.
Defined.

(** X4: the selection-scope filter does not depend on the order of the two
    selections, nor on the order of the two atoms. *)
Theorem filter_dual_selection_symmetric
    (sele1_atoms sele2_atoms : list string) (atomA atomB : string) :
  filter_dual_selection_salt_bridges sele1_atoms sele2_atoms atomA atomB
    = filter_dual_selection_salt_bridges sele2_atoms sele1_atoms atomA atomB
  ∧ filter_dual_selection_salt_bridges sele1_atoms sele2_atoms atomA atomB
    = filter_dual_selection_salt_bridges sele1_atoms sele2_atoms atomB atomA.
Proof.
  unfold filter_dual_selection_salt_bridges.
  split; repeat case_bool_decide; reflexivity.
Qed.

(** X5: raising the cutoff only adds contacts: the output for a cutoff is a
    sublist, in the same order, of the output for any cutoff that is not
    smaller, and the distances queried are the same. *)
Theorem salt_bridges_cutoff_monotone (U : contact_utils) (molid frame : Z)
    (sele_id sele_id2 : option string) (cutoff cutoff' : pyfloat) :
  float_lt cutoff cutoff' = true ∨ float_eq cutoff cutoff' = true →
  compute_salt_bridges U molid frame sele_id sele_id2 cutoff
    `sublist_of` compute_salt_bridges U molid frame sele_id sele_id2 cutoff'
  ∧ distance_queries (compute_salt_bridges_run U molid frame sele_id sele_id2 cutoff)
    = distance_queries (compute_salt_bridges_run U molid frame sele_id sele_id2 cutoff').
Proof.
  intros Hle.
  assert (Hq : distance_queries
                 (compute_salt_bridges_run U molid frame sele_id sele_id2 cutoff)
               = distance_queries
                 (compute_salt_bridges_run U molid frame sele_id sele_id2 cutoff'))
    by (by rewrite !run_queries).
  split; [|exact Hq]. rewrite !run_salt_bridges, Hq.
  apply map_sublist, filter_sublist_impl. intros [a c]. unfold within.
  intros Hlt. by eapply float_lt_widen.
Qed.

Lemma salt_bridges_cutoff_monotone_witness :
  compute_salt_bridges scoped 0 0 None None (FFin 3)
    `sublist_of` compute_salt_bridges scoped 0 0 None None default_cutoff
  ∧ compute_salt_bridges scoped 0 0 None None (FFin 3)
    = [(0, "sb", "A:ASP:1:OD1", "A:ARG:9:NH1")]
  ∧ compute_salt_bridges scoped 0 0 None None default_cutoff
    = [(0, "sb", "A:ASP:1:OD1", "A:LYS:3:NZ");
       (0, "sb", "A:ASP:1:OD1", "A:ARG:9:NH1")].
Proof.
  split; [|split; reflexivity].
  apply (salt_bridges_cutoff_monotone scoped 0 0 None None (FFin 3) default_cutoff).
  left. reflexivity.
Defined.

(** X6: a pair whose distance is not a number is never reported, and with a
    cutoff that is not a number nothing is reported, although the distances
    are queried as usual. *)
Theorem salt_bridges_nan (U : contact_utils) (molid frame : Z)
    (sele_id sele_id2 : option string) :
  (∀ cutoff anion cation,
     compute_distance U molid frame anion cation = FNaN →
     (frame, "sb", anion, cation)
       ∉ compute_salt_bridges U molid frame sele_id sele_id2 cutoff)
  ∧ compute_salt_bridges U molid frame sele_id sele_id2 FNaN = []
  ∧ distance_queries (compute_salt_bridges_run U molid frame sele_id sele_id2 FNaN)
    = List.filter (passes (selections U molid frame sele_id sele_id2))
        (candidate_pairs U molid frame sele_id sele_id2).
Proof.
  split; [|split; [|apply run_queries]].
  - intros cutoff a c Hnan [_ Hlt]%record_reported. by rewrite Hnan in Hlt.
  - rewrite run_salt_bridges.
    induction (distance_queries _) as [|[a c] l IH]; simpl; [done|].
    unfold within at 1. simpl.
    by destruct (compute_distance U molid frame a c).
Qed.

(** X7: when both selection queries are given and one of them selects no
    atom, every pair is rejected: nothing is reported and no distance is
    queried. *)
Theorem salt_bridges_empty_selection (U : contact_utils) (molid frame : Z)
    (q1 q2 : string) (cutoff : pyfloat) :
  get_selection_atoms U molid frame q1 = []
  ∨ get_selection_atoms U molid frame q2 = [] →
  compute_salt_bridges U molid frame (Some q1) (Some q2) cutoff = []
  ∧ distance_queries
      (compute_salt_bridges_run U molid frame (Some q1) (Some q2) cutoff) = [].
Proof.
  intros Hempty.
  assert (Hq : distance_queries
      (compute_salt_bridges_run U molid frame (Some q1) (Some q2) cutoff) = []).
  { destruct (distance_queries _) as [|[a c] l] eqn:Hl; [done|]. exfalso.
    assert ((a, c) ∈ distance_queries
      (compute_salt_bridges_run U molid frame (Some q1) (Some q2) cutoff)) as Hin
      by (rewrite Hl; left).
    apply queried_iff in Hin as [_ Hacc]. apply filter_accepts_iff in Hacc.
    destruct Hempty as [He|He]; rewrite He in Hacc; set_solver. }
  split; [|exact Hq]. by rewrite run_salt_bridges, Hq.
Qed.

Lemma salt_bridges_empty_selection_witness :
  compute_salt_bridges drifting 0 0 (Some "chain A") (Some "chain B") default_cutoff = []
  ∧ distance_queries
      (compute_salt_bridges_run drifting 0 0 (Some "chain A") (Some "chain B")
         default_cutoff) = [].
Proof.
  apply (salt_bridges_empty_selection drifting 0 0 "chain A" "chain B" default_cutoff).
  left. reflexivity.
Defined.

(** X8: at most one record per distance query and at most one query per
    candidate pair: the output is no longer than the list of queries, which
    is no longer than the product of the numbers of candidates. *)
Theorem salt_bridges_length_bound (U : contact_utils) (molid frame : Z)
    (sele_id sele_id2 : option string) (cutoff : pyfloat) :
  (length (compute_salt_bridges U molid frame sele_id sele_id2 cutoff)
   ≤ length (distance_queries
               (compute_salt_bridges_run U molid frame sele_id sele_id2 cutoff)))%nat
  ∧ (length (distance_queries
               (compute_salt_bridges_run U molid frame sele_id sele_id2 cutoff))
     ≤ length (get_anion_atoms U molid frame sele_id sele_id2)
       * length (get_cation_atoms U molid frame sele_id sele_id2))%nat.
Proof.
  split.
  - rewrite run_salt_bridges, length_map. apply List.filter_length_le.
  - rewrite run_queries. unfold candidate_pairs. simpl.
    rewrite <- List.length_prod. apply List.filter_length_le.
Qed.

End DetectorExtras.

(** ** dynamic_contact_networks.py: the command line *)

Section ScriptFacts.
Import DynamicContactNetworks MoreFacts.
Context (int : string → option Z).

Lemma index_Ok (x : string) (l : list string) (i : nat) :
  index x l = Ok i →
  ∃ pre post, l = pre ++ x :: post ∧ (x ∉ pre) ∧ length pre = i.
Proof.
  revert i. induction l as [|y l IH]; intros i; simpl; [done|].
  destruct (String.eqb y x) eqn:Hy.
  - apply String.eqb_eq in Hy as ->. intros [= <-]. exists [], l.
    split; [done|]. split; [apply not_elem_of_nil|done].
  - apply String.eqb_neq in Hy. destruct (index x l) as [j|e]; simpl; [|done].
    intros [= <-]. destruct (IH j eq_refl) as (pre & post & -> & Hpre & <-).
    exists (y :: pre), post. split; [done|]. split; [|done].
    rewrite not_elem_of_cons. split; [congruence|done].
Qed.

Lemma index_elem (x : string) (l : list string) :
  x ∈ l → ∃ i, index x l = Ok i.
Proof.
  induction l as [|y l IH]; [by intros ?%elem_of_nil|]. simpl.
  destruct (String.eqb y x) eqn:Hy; [by eauto|].
  apply String.eqb_neq in Hy. intros [?|Hin]%elem_of_cons; [congruence|].
  destruct (IH Hin) as [i ->]. simpl. by eauto.
Qed.

Lemma index_not_elem (x : string) (l : list string) :
  x ∉ l → index x l = Raise ValueError.
Proof.
  induction l as [|y l IH]; [done|]. simpl.
  intros [Hne Hl]%not_elem_of_cons.
  destruct (String.eqb y x) eqn:Hy.
  - apply String.eqb_eq in Hy. congruence.
  - by rewrite IH.
Qed.

Lemma drop_after (pre post : list string) (x : string) :
  drop (length pre + 1) (pre ++ x :: post) = post.
Proof. induction pre as [|y pre IH]; simpl; [done|]. exact IH. Qed.

Lemma item_Ok (l : list string) (i : nat) (v : string) :
  item l i = Ok v ↔ l !! i = Some v.
Proof. unfold item. destruct (l !! i); naive_solver. Qed.

(** The value that follows the first occurrence of a flag. *)
Lemma flag_value_Ok (flag : string) (argv : list string) (i : nat) (v : string) :
  index flag argv = Ok i → item argv (i + 1) = Ok v →
  ∃ pre post, argv = pre ++ flag :: v :: post ∧ (flag ∉ pre).
Proof.
  intros (pre & post & -> & Hpre & <-)%index_Ok. unfold item.
  rewrite lookup_app_r by lia.
  replace (length pre + 1 - length pre)%nat with 1%nat by lia.
  destruct post as [|w post]; simpl; [done|]. intros [= ->]. by exists pre, post.
Qed.

(** A block [if flag in argv: i = argv.index(flag); x = k(argv[i + 1])] that
    does not raise. *)
Lemma flag_block_Ok {A} (flag : string) (argv : list string)
    (k : string → result A) (d r : A) :
  (if bool_decide (flag ∈ argv)
   then i ← index flag argv; v ← item argv (i + 1); k v
   else Ok d) = Ok r →
  if bool_decide (flag ∈ argv)
  then ∃ pre post v, argv = pre ++ flag :: v :: post ∧ (flag ∉ pre) ∧ k v = Ok r
  else r = d.
Proof.
  case_bool_decide; [|by intros [= <-]].
  destruct (index flag argv) as [i|] eqn:Hi; simpl; [|done].
  destruct (item argv (i + 1)) as [v|] eqn:Hv; simpl; [|done].
  intros Hk. destruct (flag_value_Ok flag argv i v Hi Hv) as (pre & post & -> & ?).
  by exists pre, post, v.
Qed.

(** What a run that reaches the call of [compute_dynamic_contacts] has gone
    through. *)
Lemma main_Ok_inv (argv : list string) (c : call) :
  main int argv = Ok c →
  (4 ≤ length argv)%nat
  ∧ argv !! 1%nat = Some (TOP c) ∧ argv !! 2%nat = Some (TRAJ c)
  ∧ argv !! 3%nat = Some (OUTPUT_DIR c)
  ∧ (∃ pre post, argv = pre ++ "-itype" :: post ∧ ("-itype" ∉ pre)
       ∧ ITYPES c = if bool_decide ("-all" ∈ post)
                    then ["-sb"; "-pc"; "-ps"; "-ts"; "-vdw"; "-hb"; "-hlb"]
                    else post)
  ∧ (if bool_decide ("-cores" ∈ argv)
     then ∃ pre post v, argv = pre ++ "-cores" :: v :: post ∧ ("-cores" ∉ pre)
                        ∧ int v = Some (cores c)
     else cores c = 6)
  ∧ (if bool_decide ("-stride" ∈ argv)
     then ∃ pre post v, argv = pre ++ "-stride" :: v :: post ∧ ("-stride" ∉ pre)
                        ∧ int v = Some (stride c)
     else stride c = 1)
  ∧ ("-solv" ∉ argv) ∧ solvent_resn c = "TIP3"
  ∧ (if bool_decide ("-sele" ∈ argv)
     then ∃ pre post v, argv = pre ++ "-sele" :: v :: post ∧ ("-sele" ∉ pre)
                        ∧ sele_id c = Some v
     else sele_id c = None)
  ∧ (if bool_decide ("-ligand" ∈ argv)
     then ∃ pre post v, argv = pre ++ "-ligand" :: v :: post ∧ ("-ligand" ∉ pre)
                        ∧ ligand c = Some v
     else ligand c = None).
Proof.
  unfold main, K_MIN_ARG. intros H.
  destruct (length argv <? 4)%nat eqn:Hlen; [done|].
  apply Nat.ltb_ge in Hlen.
  destruct (item argv 1) as [top|] eqn:Htop; simpl in H; [|done].
  destruct (item argv 2) as [traj|] eqn:Htraj; simpl in H; [|done].
  destruct (item argv 3) as [out|] eqn:Hout; simpl in H; [|done].
  apply item_Ok in Htop, Htraj, Hout.
  destruct (index "-itype" argv) as [it|] eqn:Hit; simpl in H; [|done].
  destruct (if bool_decide ("-cores" ∈ argv) then _ else _)
    as [cn|] eqn:Hcores; simpl in H; [|done].
  destruct (if bool_decide ("-stride" ∈ argv) then _ else _)
    as [sn|] eqn:Hstride; simpl in H; [|done].
  destruct (if bool_decide ("-solv" ∈ argv) then _ else _)
    as [solv|] eqn:Hsolv; simpl in H; [|done].
  destruct (if bool_decide ("-sele" ∈ argv) then _ else _)
    as [sele|] eqn:Hsele; simpl in H; [|done].
  destruct (if bool_decide ("-ligand" ∈ argv) then _ else _)
    as [lig|] eqn:Hlig; simpl in H; [|done].
  injection H as <-. simpl. do 4 (split; [done|]).
  split.
  { apply index_Ok in Hit as (pre & post & -> & Hpre & <-).
    exists pre, post. do 2 (split; [done|]). by rewrite !drop_after. }
  split.
  { apply flag_block_Ok in Hcores.
    destruct (bool_decide ("-cores" ∈ argv)); [|done].
    destruct Hcores as (pre & post & v & ? & ? & Hv). exists pre, post, v.
    do 2 (split; [done|]). unfold to_int in Hv. by destruct (int v); simplify_eq. }
  split.
  { apply flag_block_Ok in Hstride.
    destruct (bool_decide ("-stride" ∈ argv)); [|done].
    destruct Hstride as (pre & post & v & ? & ? & Hv). exists pre, post, v.
    do 2 (split; [done|]). unfold to_int in Hv. by destruct (int v); simplify_eq. }
  assert (("-solv" ∉ argv) ∧ solv = "TIP3") as [? ->].
  { destruct (bool_decide ("-solv" ∈ argv)) eqn:Hs.
    - destruct (index "-solv" argv); simpl in Hsolv; done.
    - apply bool_decide_eq_false in Hs. by simplify_eq. }
  do 2 (split; [done|]).
  split.
  { apply (flag_block_Ok "-sele" argv (λ v, Ok (Some v))) in Hsele.
    destruct (bool_decide ("-sele" ∈ argv)); [|done].
    destruct Hsele as (pre & post & v & ? & ? & [= <-]). by exists pre, post, v. }
  apply (flag_block_Ok "-ligand" argv (λ v, Ok (Some v))) in Hlig.
  destruct (bool_decide ("-ligand" ∈ argv)); [|done].
  destruct Hlig as (pre & post & v & ? & ? & [= <-]). by exists pre, post, v.
Qed.






(** X10: with enough arguments but no "-itype" among them, the script ends
    with a ValueError, whatever else is on the command line. *)
Theorem script_requires_itype (argv : list string) :
  (4 ≤ length argv)%nat → "-itype" ∉ argv → main int argv = Raise ValueError.
Proof.
  intros Hlen Hno. unfold main, K_MIN_ARG.
  apply Nat.ltb_ge in Hlen as Hlt. rewrite Hlt.
  destruct (lookup_lt_is_Some_2 argv 1) as [top Htop]; [lia|].
  destruct (lookup_lt_is_Some_2 argv 2) as [traj Htraj]; [lia|].
  destruct (lookup_lt_is_Some_2 argv 3) as [out Hout]; [lia|].
  apply item_Ok in Htop, Htraj, Hout. rewrite Htop, Htraj, Hout. simpl.
  rewrite (index_not_elem "-itype" argv Hno). reflexivity.
Qed.

(** X11: a command line that holds "-solv" never reaches the computation:
    the run ends with an exception, and with a NameError when the arguments
    are otherwise in order and neither "-cores" nor "-stride" is given. *)
Theorem script_solv_never_runs (argv : list string) :
  "-solv" ∈ argv →
  (∀ c, main int argv ≠ Ok c)
  ∧ ((4 ≤ length argv)%nat → "-itype" ∈ argv →
     "-cores" ∉ argv → "-stride" ∉ argv →
     main int argv = Raise NameError).
Proof.
  intros Hsolv. split.
  - intros c Hc. apply main_Ok_inv in Hc.
    destruct Hc as (_ & _ & _ & _ & _ & _ & _ & Hno & _). done.
  - intros Hlen Hit Hcores Hstride. unfold main, K_MIN_ARG.
    apply Nat.ltb_ge in Hlen as Hlt. rewrite Hlt.
    destruct (lookup_lt_is_Some_2 argv 1) as [top Htop]; [lia|].
    destruct (lookup_lt_is_Some_2 argv 2) as [traj Htraj]; [lia|].
    destruct (lookup_lt_is_Some_2 argv 3) as [out Hout]; [lia|].
    apply item_Ok in Htop, Htraj, Hout. rewrite Htop, Htraj, Hout. simpl.
    destruct (index_elem "-itype" argv Hit) as [i ->]. simpl.
    rewrite (bool_decide_eq_false_2 ("-cores" ∈ argv)) by done.
    rewrite (bool_decide_eq_false_2 ("-stride" ∈ argv)) by done. simpl.
    rewrite (bool_decide_eq_true_2 ("-solv" ∈ argv)) by done.
    by destruct (index_elem "-solv" argv Hsolv) as [j ->].
Qed.

(** X12: in a run that reaches the computation, the topology, trajectory and
    output directory are the first three arguments whatever they are, the
    solvent is "TIP3", and an option that is not given has its default: 6
    cores, stride 1, no selection, no ligand. *)
Theorem script_positionals_and_defaults (argv : list string) (c : call) :
  main int argv = Ok c →
  argv !! 1%nat = Some (TOP c) ∧ argv !! 2%nat = Some (TRAJ c)
  ∧ argv !! 3%nat = Some (OUTPUT_DIR c)
  ∧ solvent_resn c = "TIP3"
  ∧ ("-cores" ∉ argv → cores c = 6)
  ∧ ("-stride" ∉ argv → stride c = 1)
  ∧ ("-sele" ∉ argv → sele_id c = None)
  ∧ ("-ligand" ∉ argv → ligand c = None).
Proof.
  intros (_ & ? & ? & ? & _ & Hc & Hs & _ & ? & Hsel & Hlig)%main_Ok_inv.
  do 4 (split; [done|]).
  split; [intros Hno; by rewrite bool_decide_eq_false_2 in Hc|].
  split; [intros Hno; by rewrite bool_decide_eq_false_2 in Hs|].
  split; [intros Hno; by rewrite bool_decide_eq_false_2 in Hsel|].
  intros Hno; by rewrite bool_decide_eq_false_2 in Hlig.
Qed.

(** X13: in a run that reaches the computation, the interaction types are
    everything that follows the first "-itype" up to the end of the command
    line, options given there included, or the seven fixed types when "-all"
    is among them. *)
Theorem script_itypes (argv : list string) (c : call) :
  main int argv = Ok c →
  ∃ pre post,
    argv = pre ++ "-itype" :: post ∧ ("-itype" ∉ pre)
    ∧ ITYPES c = if bool_decide ("-all" ∈ post)
                 then ["-sb"; "-pc"; "-ps"; "-ts"; "-vdw"; "-hb"; "-hlb"]
                 else post.
Proof. by intros (_ & _ & _ & _ & ? & _)%main_Ok_inv. Qed.

(** X14: in a run that reaches the computation, the value of each of
    "-cores", "-stride", "-sele" and "-ligand" that is given is the argument
    that follows its first occurrence, read through int for the first two. *)
Theorem script_option_values (argv : list string) (c : call) :
  main int argv = Ok c →
  ("-cores" ∈ argv →
     ∃ pre post v, argv = pre ++ "-cores" :: v :: post ∧ ("-cores" ∉ pre)
                   ∧ int v = Some (cores c))
  ∧ ("-stride" ∈ argv →
     ∃ pre post v, argv = pre ++ "-stride" :: v :: post ∧ ("-stride" ∉ pre)
                   ∧ int v = Some (stride c))
  ∧ ("-sele" ∈ argv →
     ∃ pre post v, argv = pre ++ "-sele" :: v :: post ∧ ("-sele" ∉ pre)
                   ∧ sele_id c = Some v)
  ∧ ("-ligand" ∈ argv →
     ∃ pre post v, argv = pre ++ "-ligand" :: v :: post ∧ ("-ligand" ∉ pre)
                   ∧ ligand c = Some v).
Proof.
  intros (_ & _ & _ & _ & _ & Hc & Hs & _ & _ & Hsel & Hlig)%main_Ok_inv.
  split; [intros Hin; by rewrite bool_decide_eq_true_2 in Hc|].
  split; [intros Hin; by rewrite bool_decide_eq_true_2 in Hs|].
  split; [intros Hin; by rewrite bool_decide_eq_true_2 in Hsel|].
  intros Hin; by rewrite bool_decide_eq_true_2 in Hlig.
Qed.

End ScriptFacts.

Section ScriptWitnesses.
Import DynamicContactNetworks MoreFacts.

Lemma script_requires_itype_witness :
  main decimal ["dynamic_contact_networks.py"; "topology.pdb"; "trajectory.dcd";
                "output"; "-cores"; "4"] = Raise ValueError.
Proof.
  apply (script_requires_itype decimal); [simpl; lia|].
  apply (bool_decide_unpack _). vm_compute. exact I.
Defined.

Lemma script_solv_never_runs_witness :
  main decimal solv_example = Raise NameError.
Proof.
  apply (script_solv_never_runs decimal solv_example);
    apply (bool_decide_unpack _); vm_compute; exact I.
Defined.

Lemma script_positionals_and_defaults_witness :
  main decimal usage_example
    = Ok (Call "topology.pdb" "trajectory.dcd" "output" ["-hb"; "-hlb"]
            6 1 "TIP3" None None)
  ∧ usage_example !! 1%nat = Some "topology.pdb".
Proof.
  assert (H : main decimal usage_example
    = Ok (Call "topology.pdb" "trajectory.dcd" "output" ["-hb"; "-hlb"]
            6 1 "TIP3" None None)) by reflexivity.
  split; [exact H|].
  apply (script_positionals_and_defaults decimal usage_example _ H).
Defined.

Lemma script_itypes_witness :
  main decimal late_option_example
    = Ok (Call "topology.pdb" "trajectory.dcd" "output" ["-sb"; "-cores"; "4"]
            4 1 "TIP3" None None)
  ∧ ∃ pre post,
      late_option_example = pre ++ "-itype" :: post ∧ ("-itype" ∉ pre)
      ∧ ["-sb"; "-cores"; "4"]
        = if bool_decide ("-all" ∈ post)
          then ["-sb"; "-pc"; "-ps"; "-ts"; "-vdw"; "-hb"; "-hlb"]
          else post.
Proof.
  assert (H : main decimal late_option_example
    = Ok (Call "topology.pdb" "trajectory.dcd" "output" ["-sb"; "-cores"; "4"]
            4 1 "TIP3" None None)) by reflexivity.
  split; [exact H|].
  apply (script_itypes decimal late_option_example _ H).
Defined.

Lemma script_option_values_witness :
  main decimal options_example
    = Ok (Call "topology.pdb" "trajectory.dcd" "output"
            ["-sb"; "-pc"; "-ps"; "-ts"; "-vdw"; "-hb"; "-hlb"]
            12 5 "TIP3" (Some "chain A") (Some "LIG"))
  ∧ ∃ pre post v,
      options_example = pre ++ "-sele" :: v :: post ∧ ("-sele" ∉ pre)
      ∧ Some "chain A" = Some v.
Proof.
  assert (H : main decimal options_example
    = Ok (Call "topology.pdb" "trajectory.dcd" "output"
            ["-sb"; "-pc"; "-ps"; "-ts"; "-vdw"; "-hb"; "-hlb"]
            12 5 "TIP3" (Some "chain A") (Some "LIG"))) by reflexivity.
  split; [exact H|].
  destruct (script_option_values decimal options_example _ H) as (_ & _ & Hsele & _).
  apply Hsele. apply (bool_decide_unpack _). vm_compute. exact I.
Defined.

End ScriptWitnesses.

(** ** The graph builder: what the graph depends on *)

Section BuilderExtras.
Import Flare FlareFacts MoreFacts.
Context (resi_labels : option (gmap string resi_label)).

Lemma add_contacts_snoc (cs : list stripped) (c : stripped) (st : builder) :
  add_contacts resi_labels st (cs ++ [c])
  = add_contacts resi_labels st cs ≫= λ st1, add_contact resi_labels st1 c.
Proof.
  revert st. induction cs as [|c0 cs IH]; intros st; simpl.
  - by destruct (add_contact resi_labels st c).
  - destruct (add_contact resi_labels st c0); simpl; [apply IH | done].
Qed.

(** One iteration reads the contact through its frame and its two residue
    keys only, and the builder through its edges only. *)
Lemma add_contact_congr (st1 st2 : builder) (c1 c2 : stripped) :
  resi_edges st1 = resi_edges st2 → ret_edges st1 = ret_edges st2 →
  self_contact c1 = self_contact c2 → keys c1 = keys c2 → c1.1.1.1 = c2.1.1.1 →
  ∃ st1' st2',
    add_contact resi_labels st1 c1 = Some st1'
    ∧ add_contact resi_labels st2 c2 = Some st2'
    ∧ resi_edges st1' = resi_edges st2' ∧ ret_edges st1' = ret_edges st2'.
Proof.
  intros Hres Hret Hself Hkeys Hframe.
  assert (Hck : contact_key c1 = contact_key c2)
    by (unfold contact_key; by rewrite Hkeys).
  destruct (add_contact_cases resi_labels st1 c1)
    as [[Hs1 ->]|[(Hs1 & Hl1 & ->)
        |(n1 & n2 & Hs1 & Hl1 & [[Hn1 ->]|(i & Ho1 & ->)])]];
    rewrite ?Hself, ?Hkeys, ?Hck, ?Hframe, ?Hres, ?Hret in *;
    destruct (add_contact_cases resi_labels st2 c2)
      as [[Hs2 ->]|[(Hs2 & Hl2 & ->)
          |(m1 & m2 & Hs2 & Hl2 & [[Hn2 ->]|(j & Ho2 & ->)])]];
    try congruence; eexists _, _; (split; [done|]); (split; [done|]); simpl;
    rewrite ?Hres, ?Hret; simplify_eq; done.
Qed.

Lemma add_contacts_congr (cs1 cs2 : list stripped) (st1 st2 : builder) :
  Forall2 (λ c1 c2, self_contact c1 = self_contact c2 ∧ keys c1 = keys c2
                    ∧ c1.1.1.1 = c2.1.1.1) cs1 cs2 →
  resi_edges st1 = resi_edges st2 → ret_edges st1 = ret_edges st2 →
  ∃ st1' st2',
    add_contacts resi_labels st1 cs1 = Some st1'
    ∧ add_contacts resi_labels st2 cs2 = Some st2'
    ∧ ret_edges st1' = ret_edges st2'.
Proof.
  intros Hall. revert st1 st2.
  induction Hall as [|c1 c2 cs1 cs2 (Hs & Hk & Hf) _ IH]; intros st1 st2 Hres Hret.
  - exists st1, st2. by simpl.
  - destruct (add_contact_congr st1 st2 c1 c2 Hres Hret Hs Hk Hf)
      as (st1' & st2' & H1 & H2 & Hres' & Hret').
    simpl. rewrite H1, H2. simpl. by apply IH.
Qed.

Lemma same_residues_strip (c c' : contact) :
  same_residues c c' →
  self_contact (strip c) = self_contact (strip c')
  ∧ keys (strip c) = keys (strip c')
  ∧ (strip c).1.1.1 = (strip c').1.1.1.
Proof.
  intros [Hf Hk]. rewrite !self_contact_strip, !keys_strip.
  split; [|split; [|done]].
  - destruct Hk as [[-> ->]|[-> ->]]; [done|apply String.eqb_sym].
  - destruct Hk as [[-> ->]|[-> ->]]; [done|].
    destruct (decide (residue_key (c_atom2 c') = residue_key (c_atom1 c')))
      as [-> | Hne]; [done|]. by apply canonical_sym.
Qed.

Lemma sorted_set_snoc_elem (fs : list Z) (f : Z) :
  f ∈ fs → sorted_set (fs ++ [f]) = sorted_set fs.
Proof.
  intros Hf. unfold sorted_set. do 2 f_equal.
  apply set_eq. intros x. rewrite !elem_of_list_to_set, elem_of_app.
  rewrite list_elem_of_singleton. naive_solver.
Qed.

End BuilderExtras.

Section BuilderExtraClaims.
Import Flare FlareFacts MoreFacts.

(** X15: the graph depends on each contact only through its frame and the
    unordered pair of its residue keys: exchanging the two atoms of contacts,
    or changing interaction types, atom names or further atoms, gives the
    same graph. *)
Theorem graph_reads_frames_and_residues (contacts contacts' : list contact)
    (resi_labels : option (gmap string resi_label)) :
  Forall2 same_residues contacts contacts' →
  create_graph contacts resi_labels = create_graph contacts' resi_labels.
Proof.
  intros Hall. unfold create_graph, build.
  destruct (add_contacts_congr resi_labels (strip <$> contacts) (strip <$> contacts')
              init init) as (st & st' & -> & -> & Hret); [|done|done|].
  - apply Forall2_fmap. eapply Forall2_impl; [exact Hall|].
    intros c c' Hcc. by apply same_residues_strip.
  - simpl. by rewrite Hret.
Qed.

Lemma graph_reads_frames_and_residues_witness :
  create_graph one_bridge None
  = create_graph [Contact 0 "hbss" ["A"; "ARG"; "4"; "NE"] ["A"; "GLU"; "9"; "OE2"]
                    [["W"; "TIP3"; "81"; "OH2"]]] None.
Proof.
  apply (graph_reads_frames_and_residues one_bridge
           [Contact 0 "hbss" ["A"; "ARG"; "4"; "NE"] ["A"; "GLU"; "9"; "OE2"]
              [["W"; "TIP3"; "81"; "OH2"]]] None).
  constructor; [|constructor].
  split; [reflexivity|]. right. split; reflexivity.
Defined.

(** X16: giving again, at the end of the input, a contact that is already in
    it does not change the graph. *)
Theorem repeated_contact_changes_nothing (contacts : list contact) (c : contact)
    (resi_labels : option (gmap string resi_label)) :
  c ∈ contacts →
  create_graph (contacts ++ [c]) resi_labels = create_graph contacts resi_labels.
Proof.
  intros Hc. unfold create_graph, build. rewrite fmap_app.
  change (strip <$> [c]) with [strip c]. rewrite add_contacts_snoc.
  destruct (build_consistent resi_labels contacts) as (st & Hst & [Hd Ho Hf He]).
  unfold build in Hst. rewrite Hst. cbn [mbind option_bind].
  destruct (add_contact_cases resi_labels st (strip c))
    as [[_ ->]|[(_ & _ & ->)|(n1 & n2 & Hself & Hlook & [[Hnew _]|(i & Hold & ->)])]];
    cbn [mbind option_bind ret_edges]; try done.
  - assert (kept resi_labels (strip c) = true) as Hk
      by (unfold kept; by rewrite Hself, Hlook).
    destruct (Hf (strip c)) as [j Hj]; [by apply list_elem_of_fmap_2|done|].
    congruence.
  - assert (kept resi_labels (strip c) = true) as Hk
      by (unfold kept; by rewrite Hself, Hlook).
    do 2 f_equal. apply list_eq. intros j. rewrite !list_lookup_fmap.
    destruct (decide (i = j)) as [<- | Hne]; [|by rewrite list_lookup_alter_ne].
    rewrite list_lookup_alter_eq.
    destruct (He _ _ Hold) as (e & k1 & k2 & -> & _ & _ & _ & Hfr & _). simpl.
    f_equal. unfold finalize, append_frame. simpl. f_equal.
    apply sorted_set_snoc_elem. rewrite Hfr. apply frames_for_elem.
    exists (strip c). split; [by apply list_elem_of_fmap_2|done].
Qed.

Lemma repeated_contact_changes_nothing_witness :
  create_graph (one_bridge ++ [Contact 0 "sb" ["A"; "GLU"; "9"; "OE1"]
                                 ["A"; "ARG"; "4"; "NH1"] []]) None
  = create_graph one_bridge None.
Proof.
  apply (repeated_contact_changes_nothing one_bridge
           (Contact 0 "sb" ["A"; "GLU"; "9"; "OE1"] ["A"; "ARG"; "4"; "NH1"] []) None).
  apply list_elem_of_here.
Defined.

End BuilderExtraClaims.

(** ** The graph builder: order of the edges, messages, labels *)

Section OrderFacts.
Import Flare FlareFacts MoreFacts.
Context (resi_labels : option (gmap string resi_label)).

Lemma first_seen_snoc (l : list string) (x : string) :
  first_seen (l ++ [x])
  = if bool_decide (x ∈ first_seen l) then first_seen l else first_seen l ++ [x].
Proof. unfold first_seen. by rewrite foldl_snoc. Qed.

Lemma first_seen_elem (l : list string) (x : string) : x ∈ first_seen l ↔ x ∈ l.
Proof.
  revert x. induction l as [|y l IH] using rev_ind; intros x; [done|].
  rewrite first_seen_snoc, elem_of_app, list_elem_of_singleton.
  case_bool_decide as Hy.
  - rewrite IH. rewrite IH in Hy. naive_solver.
  - rewrite elem_of_app, list_elem_of_singleton, IH. done.
Qed.

Lemma first_seen_nil (l : list string) : first_seen l = [] ↔ l = [].
Proof.
  split; [|by intros ->]. intros Hnil. destruct l as [|x l]; [done|].
  assert (x ∈ first_seen (x :: l)) as Hx by (apply first_seen_elem; left).
  rewrite Hnil in Hx. by apply elem_of_nil in Hx.
Qed.

Lemma kept_keys_snoc (cs : list stripped) (c : stripped) :
  kept_keys resi_labels (cs ++ [c])
  = kept_keys resi_labels cs
    ++ (if kept resi_labels c then [contact_key c] else []).
Proof.
  unfold kept_keys. rewrite List.filter_app, fmap_app. f_equal. simpl.
  by destruct (kept resi_labels c).
Qed.

Lemma in_input_order_init : in_input_order resi_labels [] init.
Proof.
  split; [done|]. intros k i. simpl. rewrite lookup_empty. done.
Qed.

Lemma in_input_order_step (cs : list stripped) (st st' : builder) (c : stripped) :
  in_input_order resi_labels cs st →
  add_contact resi_labels st c = Some st' →
  in_input_order resi_labels (cs ++ [c]) st'.
Proof.
  intros [Hlen Hiff] Hadd. unfold in_input_order. rewrite kept_keys_snoc.
  destruct (add_contact_cases resi_labels st c)
    as [[Hself Heq]|[(Hself & Hlook & Heq)
        |(n1 & n2 & Hself & Hlook & [[Hnew Heq]|(i & Hold & Heq)])]];
    rewrite Heq in Hadd; injection Hadd as <-; simpl.
  - assert (kept resi_labels c = false) as -> by (unfold kept; by rewrite Hself).
    by rewrite app_nil_r.
  - assert (kept resi_labels c = false) as ->
      by (unfold kept; by rewrite Hlook, andb_false_r).
    by rewrite app_nil_r.
  - assert (kept resi_labels c = true) as -> by (unfold kept; by rewrite Hself, Hlook).
    assert (contact_key c ∉ first_seen (kept_keys resi_labels cs)) as Hfresh.
    { intros [i Hi]%list_elem_of_lookup. apply Hiff in Hi. congruence. }
    rewrite first_seen_snoc, bool_decide_eq_false_2 by done.
    split; [rewrite !length_app; simpl; lia|]. intros k i.
    rewrite lookup_insert. case_decide as Hk.
    + subst k. split.
      * intros [= <-]. rewrite Hlen. by apply list_lookup_middle.
      * intros Hi. f_equal. destruct (decide (i < length (first_seen
          (kept_keys resi_labels cs)))%nat) as [Hlt|Hge].
        -- rewrite lookup_app_l in Hi by done. exfalso. apply Hfresh.
           by eapply list_elem_of_lookup_2.
        -- apply lookup_lt_Some in Hi. rewrite length_app in Hi. simpl in Hi. lia.
    + rewrite Hiff. split.
      * intros Hi. rewrite lookup_app_l; [done|]. by eapply lookup_lt_Some.
      * intros Hi. apply lookup_app_Some in Hi as [Hi|[_ Hi]]; [done|].
        apply list_lookup_singleton_Some in Hi as [_ ?]. congruence.
  - assert (kept resi_labels c = true) as -> by (unfold kept; by rewrite Hself, Hlook).
    assert (contact_key c ∈ first_seen (kept_keys resi_labels cs)) as Hseen.
    { apply Hiff in Hold. by eapply list_elem_of_lookup_2. }
    rewrite first_seen_snoc, bool_decide_eq_true_2 by done.
    by rewrite length_alter.
Qed.

Lemma in_input_order_steps (cs rest : list stripped) (st st' : builder) :
  in_input_order resi_labels cs st →
  add_contacts resi_labels st rest = Some st' →
  in_input_order resi_labels (cs ++ rest) st'.
Proof.
  revert cs st. induction rest as [|c rest IH]; intros cs st Hord; simpl.
  - intros [= <-]. by rewrite app_nil_r.
  - destruct (add_contact resi_labels st c) as [st1|] eqn:Hadd; simpl; [|done].
    intros Hrest. rewrite cons_middle, app_assoc.
    eapply IH; [|done]. by eapply in_input_order_step.
Qed.

(** The messages printed are those of the omitted contacts, in input
    order. *)
Lemma add_contacts_stdout (cs : list stripped) (st st' : builder) :
  add_contacts resi_labels st cs = Some st' →
  stdout st' = stdout st ++ List.filter (omitted resi_labels) cs.
Proof.
  revert st. induction cs as [|c cs IH]; intros st; simpl.
  - intros [= <-]. by rewrite app_nil_r.
  - destruct (add_contact resi_labels st c) as [st1|] eqn:Hadd; simpl; [|done].
    intros Hrest. rewrite (IH st1 Hrest). unfold omitted at 2.
    destruct (add_contact_cases resi_labels st c)
      as [[Hself Heq]|[(Hself & Hlook & Heq)
          |(n1 & n2 & Hself & Hlook & [[_ Heq]|(i & _ & Heq)])]];
      rewrite Heq in Hadd; injection Hadd as <-; simpl; unfold kept;
      rewrite Hself, ?Hlook; simpl; by rewrite <- ?app_assoc.
Qed.


End OrderFacts.

Section OrderClaims.
Import Flare FlareFacts MoreFacts.

Lemma fmap_nil_iff {A B} (f : A → B) (l : list A) : f <$> l = [] ↔ l = [].
Proof. by destruct l. Qed.

Lemma build_facts (resi_labels : option (gmap string resi_label))
    (contacts : list contact) :
  ∃ st, build resi_labels contacts = Some st
        ∧ consistent resi_labels (strip <$> contacts) st
        ∧ in_input_order resi_labels (strip <$> contacts) st
        ∧ stdout st = List.filter (omitted resi_labels) (strip <$> contacts).
Proof.
  destruct (build_consistent resi_labels contacts) as (st & Hst & Hcons).
  exists st. do 2 (split; [done|]). unfold build in Hst. split.
  - exact (in_input_order_steps resi_labels [] _ init st
             (in_input_order_init resi_labels) Hst).
  - by rewrite (add_contacts_stdout resi_labels _ init st Hst).
Qed.

(** X17: the edges come in the order in which their contact keys first
    appear among the kept contacts of the input, one edge per distinct key,
    and the edge of a key holds the sorted set of the frames of the kept
    contacts with that key. *)
Theorem edges_in_order_of_first_appearance (contacts : list contact)
    (resi_labels : option (gmap string resi_label)) :
  ∃ g, create_graph contacts resi_labels = Some g
    ∧ length (edges g)
      = length (first_seen (kept_keys resi_labels (strip <$> contacts)))
    ∧ ∀ i k,
        first_seen (kept_keys resi_labels (strip <$> contacts)) !! i = Some k →
        ∃ e, edges g !! i = Some e
          ∧ frames e
            = sorted_set (frames_for resi_labels k (strip <$> contacts)).
Proof.
  destruct (build_facts resi_labels contacts)
    as (st & Hst & [Hd Ho Hf He] & [Hlen Hiff] & _).
  eexists. split; [unfold create_graph; by rewrite Hst|]. cbn [edges].
  split; [by rewrite length_fmap|].
  intros i k Hk. apply Hiff in Hk.
  destruct (He k i Hk) as (e & k1 & k2 & Hi & _ & _ & _ & Hfr & _).
  exists (finalize e). rewrite list_lookup_fmap, Hi. split; [done|].
  unfold finalize. simpl. by rewrite Hfr.
Qed.

(** X18: the graph has no edge exactly when no contact of the input is kept,
    that is when every contact joins a residue with itself or is omitted by
    the label look-up; the empty input is such a case. *)
Theorem no_edge_iff_no_kept_contact (contacts : list contact)
    (resi_labels : option (gmap string resi_label)) :
  ∃ g, create_graph contacts resi_labels = Some g
    ∧ (edges g = [] ↔ ∀ c, c ∈ contacts → kept resi_labels (strip c) = false).
Proof.
  destruct (build_facts resi_labels contacts) as (st & Hst & _ & [Hlen _] & _).
  eexists. split; [unfold create_graph; by rewrite Hst|]. cbn [edges].
  rewrite fmap_nil_iff.
  assert (ret_edges st = [] ↔ kept_keys resi_labels (strip <$> contacts) = []) as ->.
  { rewrite <- first_seen_nil. split; intros Hnil.
    - apply length_zero_iff_nil. rewrite <- Hlen, Hnil. done.
    - apply length_zero_iff_nil. rewrite Hlen, Hnil. done. }
  unfold kept_keys. rewrite fmap_nil_iff. split.
  - intros Hnil c Hc. destruct (kept resi_labels (strip c)) eqn:Hk; [|done].
    assert (strip c ∈ List.filter (kept resi_labels) (strip <$> contacts)) as Hin.
    { apply list_elem_of_In, filter_In. rewrite <- list_elem_of_In.
      split; [by apply list_elem_of_fmap_2|done]. }
    rewrite Hnil in Hin. by apply elem_of_nil in Hin.
  - intros Hall.
    destruct (List.filter _ _) as [|c' l] eqn:Hl; [done|]. exfalso.
    assert (c' ∈ List.filter (kept resi_labels) (strip <$> contacts)) as Hin
      by (rewrite Hl; left).
    apply list_elem_of_In, filter_In in Hin as [Hin Hk].
    apply list_elem_of_In, list_elem_of_fmap in Hin as (c & -> & Hc).
    by rewrite (Hall c Hc) in Hk.
Qed.

(** X19: the omission message is printed once for each contact that joins
    two residues and is omitted by the label look-up, in input order; without
    a label table, or with an empty one, nothing is printed. *)
Theorem omission_messages (contacts : list contact)
    (resi_labels : option (gmap string resi_label)) :
  ∃ st, build resi_labels contacts = Some st
    ∧ stdout st = List.filter (omitted resi_labels) (strip <$> contacts)
    ∧ (∀ c, c ∈ stdout st ↔
         c ∈ strip <$> contacts
         ∧ (keys c).1 ≠ (keys c).2
         ∧ look_up_labels resi_labels (keys c).1 (keys c).2 = Some Omitted)
    ∧ (truthy resi_labels = false → stdout st = []).
Proof.
  destruct (build_facts resi_labels contacts) as (st & Hst & _ & _ & Hout).
  exists st. do 2 (split; [done|]). rewrite Hout.
  assert (Hom : ∀ c, omitted resi_labels c = true ↔
            (keys c).1 ≠ (keys c).2
            ∧ look_up_labels resi_labels (keys c).1 (keys c).2 = Some Omitted).
  { intros c. unfold omitted, kept.
    destruct (self_contact c) eqn:Hself; simpl.
    - split; [done|]. intros [Hne _]. exfalso. apply Hne.
      destruct c as [[[f t] a1] a2]. unfold self_contact, keys in *.
      apply String.eqb_eq in Hself. rewrite Hself. unfold canonical.
      by destruct (PyStr.gt _ _).
    - pose proof (keys_lt c Hself) as Hlt%ltb_neq.
      destruct (look_up_labels_total resi_labels (keys c).1 (keys c).2)
        as [[|n1 n2] ->]; simpl; naive_solver. }
  split.
  - intros c. rewrite list_elem_of_In, filter_In, <- list_elem_of_In, Hom. done.
  - intros Hfalse.
    destruct (List.filter _ _) as [|c l] eqn:Hl; [done|]. exfalso.
    assert (c ∈ List.filter (omitted resi_labels) (strip <$> contacts)) as Hin
      by (rewrite Hl; left).
    apply list_elem_of_In, filter_In in Hin as [_ Hc].
    apply Hom in Hc as [_ Hc]. unfold look_up_labels in Hc.
    by rewrite Hfalse in Hc.
Qed.



(** X21: the "trees" and "tracks" sections are written exactly when a label
    table is given, an empty one included, whatever the contacts are; they
    hold one tree and one track, with one path and one property of size 1.0
    per entry of the table, made of that entry's tree path, label and
    color. *)
Theorem trees_and_tracks_from_the_table (contacts : list contact)
    (resi_labels : option (gmap string resi_label)) :
  ∃ g, create_graph contacts resi_labels = Some g
    ∧ (resi_labels = None → trees g = None ∧ tracks g = None)
    ∧ ∀ m, resi_labels = Some m →
        ∃ paths properties,
          trees g = Some [Tree "DefaultTree" paths]
          ∧ tracks g = Some [Track "DefaultTrack" properties]
          ∧ length paths = base.size m ∧ length properties = base.size m
          ∧ (∀ p, p ∈ paths ↔ ∃ k l, m !! k = Some l ∧ p = treepath l)
          ∧ (∀ t, t ∈ properties ↔
               ∃ k l, m !! k = Some l
                      ∧ t = TrackProperty (label l) (color l) 1%Q).
Proof.
  destruct (build_consistent resi_labels contacts) as (st & Hst & _).
  eexists. split; [unfold create_graph; by rewrite Hst|]. cbn [trees tracks].
  split; [by intros ->|]. intros m ->. simpl.
  eexists _, _. do 2 (split; [reflexivity|]).
  split; [by rewrite length_fmap, length_map_to_list|].
  split; [by rewrite length_fmap, length_map_to_list|].
  split.
  - intros p. rewrite list_elem_of_fmap. split.
    + intros ([k l] & -> & Hin%elem_of_map_to_list). by exists k, l.
    + intros (k & l & Hkl & ->). exists (k, l). by rewrite elem_of_map_to_list.
  - intros t. rewrite list_elem_of_fmap. split.
    + intros ([k l] & -> & Hin%elem_of_map_to_list). by exists k, l.
    + intros (k & l & Hkl & ->). exists (k, l). by rewrite elem_of_map_to_list.
Qed.

End OrderClaims.

(** ** parse_itypes: the set of tokens *)

Section ParseItypesExtras.
Import PyStr Flare.

(** Splitting around a separator splits the two sides. *)
Lemma split_app (sep : ascii) (s t : string) :
  split sep (s +:+ String sep t) = split sep s ++ split sep t.
Proof.
  induction s as [|c s IH].
  - simpl. by rewrite Ascii.eqb_refl.
  - change (String c s +:+ String sep t) with (String c (s +:+ String sep t)).
    simpl. rewrite IH. destruct (Ascii.eqb c sep); [done|].
    by destruct (split_cons sep s) as (tok & toks & ->).
Qed.

Lemma contains_false (sub s : string) :
  ¬ (∃ pre post, s = pre +:+ sub +:+ post) → contains sub s = false.
Proof. rewrite <- contains_spec. apply not_true_is_false. Qed.

(** X22: on its second path [parse_itypes] never returns the empty set: the
    empty argument gives the set that holds the empty tag, and an argument
    that ends with a comma gives a set that holds it too. *)
Theorem parse_itypes_set_is_not_empty (itype_argument : string) :
  parse_itypes itype_argument ≠ ItypeSet ∅
  ∧ parse_itypes "" = ItypeSet {[ "" ]}
  ∧ (¬ (∃ pre post, itype_argument +:+ "," = pre +:+ "all" +:+ post) →
     ∃ tags, parse_itypes (itype_argument +:+ ",") = ItypeSet tags ∧ "" ∈ tags).
Proof.
  split; [|split; [by vm_compute|]].
  - unfold parse_itypes. destruct (contains "all" itype_argument); [done|].
    destruct (split_cons "," itype_argument) as (tok & toks & ->).
    intros [= Hset]. assert (tok ∈ (∅ : gset string)) as Hin
      by (rewrite <- Hset; set_solver).
    by apply not_elem_of_empty in Hin.
  - intros Hno%contains_false. unfold parse_itypes. rewrite Hno.
    eexists. split; [done|]. rewrite elem_of_list_to_set, split_app.
    apply elem_of_app. right. simpl. left.
Qed.

(** X23: on its second path the result does not depend on the order of the
    tokens nor on their repetition: two comma-joined lists of comma-free
    tokens with the same members, neither join holding "all", give the same
    set. *)
Theorem parse_itypes_ignores_order_and_repetition (toks toks' : list string) :
  toks ≠ [] → toks' ≠ [] →
  Forall (free_of ",") toks → Forall (free_of ",") toks' →
  (∀ t, t ∈ toks ↔ t ∈ toks') →
  contains "all" (String.concat "," toks) = false →
  contains "all" (String.concat "," toks') = false →
  parse_itypes (String.concat "," toks) = parse_itypes (String.concat "," toks').
Proof.
  intros Hne Hne' Hfree Hfree' Hsame Hno Hno'. unfold parse_itypes.
  rewrite Hno, Hno', !split_concat by done. f_equal.
  apply set_eq. intros t. by rewrite !elem_of_list_to_set.
Qed.

Lemma parse_itypes_ignores_order_and_repetition_witness :
  parse_itypes "sb,hb,sb" = parse_itypes "hb,sb".
Proof.
  apply (parse_itypes_ignores_order_and_repetition ["sb"; "hb"; "sb"] ["hb"; "sb"]);
    try done.
  - repeat constructor; by vm_compute.
  - repeat constructor; by vm_compute.
  - intros t. rewrite !elem_of_cons. naive_solver.
Defined.

End ParseItypesExtras.
